(** * SetlistPDFExporter: the text-fitting engine of pdfexportmodule.js

    A shallow embedding of the class [SetlistPDFExporter] and the proofs of
    the properties its specification states about it.

    Modelling conventions.
    - A JavaScript string is the list of its UTF-16 code units ([jsstring]);
      [length], indexing and [substring] count code units, as in the source.
    - A JavaScript number that holds a length or an index is a [Z]; one that
      holds a width, a height or a font size is a rational [Q].  Doubles are
      idealised as exact rationals: no rounding, no NaN, no Infinity.  The
      width oracle is assumed to give a non-zero width to the letter M, the
      only number the source divides by.
    - The jsPDF document is a record of the current font and of the calls
      made on it; methods that touch [this.doc] or the console are written
      in a small state monad.  The measurement [doc.getTextWidth] belongs to
      the external library and is a section variable. *)

From Stdlib Require Import List ZArith NArith QArith Qround Qminmax Bool Lia.
From Stdlib Require Import Ascii String Sorted.
Import ListNotations.
Open Scope Z_scope.

(** ** Strings *)

Module JS.

Definition char := N.
Definition jsstring := list char.

(** A string literal of the source, ASCII only. *)
Definition lit (s : string) : jsstring :=
  List.map N_of_ascii (list_ascii_of_string s).

Definition len (s : jsstring) : Z := Z.of_nat (List.length s).

Fixpoint eqb (s t : jsstring) : bool :=
  match s, t with
  | [], [] => true
  | c :: s', d :: t' => N.eqb c d && eqb s' t'
  | _, _ => false
  end.

(** [s[i]] used as a string operand: a one-unit string, or the text of
    [undefined] when [i] is out of range. *)
Definition index (s : jsstring) (i : Z) : jsstring :=
  if i <? 0 then lit "undefined"
  else match nth_error s (Z.to_nat i) with
       | Some c => [c]
       | None => lit "undefined"
       end.

(** [s.substring(a, b)]: both bounds clamped to [0, length], swapped when
    out of order. *)
Definition substring (s : jsstring) (a b : Z) : jsstring :=
  let clamp i := Z.to_nat (Z.max 0 (Z.min i (len s))) in
  let lo := Nat.min (clamp a) (clamp b) in
  let hi := Nat.max (clamp a) (clamp b) in
  firstn (hi - lo) (skipn lo s).

(** [s.split(sep)] for a one-unit separator string. *)
Fixpoint split_from (sep : char) (cur s : jsstring) : list jsstring :=
  match s with
  | [] => [cur]
  | c :: s' =>
      if N.eqb c sep then cur :: split_from sep [] s'
      else split_from sep (cur ++ [c]) s'
  end.

Definition split (sep : char) (s : jsstring) : list jsstring :=
  split_from sep [] s.

(** [words.join(sep)]. *)
Fixpoint join (sep : jsstring) (ws : list jsstring) : jsstring :=
  match ws with
  | [] => []
  | [w] => w
  | w :: ws' => w ++ sep ++ join sep ws'
  end.

Definition space : char := 32%N.

(** The class [\w] of a regular expression without the [u] flag. *)
Definition isWordChar (c : char) : bool :=
  ((48 <=? c) && (c <=? 57) || (65 <=? c) && (c <=? 90)
   || (97 <=? c) && (c <=? 122) || (c =? 95))%N.

(** The class [\s]: the white space and line terminator code units. *)
Definition isWhiteSpace (c : char) : bool :=
  ((9 <=? c) && (c <=? 13) || (c =? 32) || (c =? 160) || (c =? 5760)
   || (8192 <=? c) && (c <=? 8202) || (c =? 8232) || (c =? 8233)
   || (c =? 8239) || (c =? 8287) || (c =? 12288) || (c =? 65279))%N.

(** Canonicalisation under the [i] flag.  A code unit outside ASCII never
    canonicalises to an ASCII one, so for the ASCII letters of the source's
    patterns this is the comparison the engine makes. *)
Definition canonicalize (c : char) : char :=
  if ((97 <=? c) && (c <=? 122))%N then (c - 32)%N else c.

Definition charMatches (ignoreCase : bool) (p x : char) : bool :=
  if ignoreCase then N.eqb (canonicalize p) (canonicalize x) else N.eqb p x.

(** *** The regular expressions of the source

    Every pattern the module builds is a sequence of literal code units,
    one character class, or a word between two [\b] assertions. *)
Inductive atom : Type :=
| Lit (c : char)
| Class (p : char -> bool)
| WordBoundary.

Definition regexp := list atom.

Definition isWordAt (c : option char) : bool :=
  match c with Some x => isWordChar x | None => false end.

(** Match [pat] at the head of [s], [prev] being the unit just before;
    the result is the number of units consumed. *)
Fixpoint matchHere (ignoreCase : bool) (pat : regexp) (prev : option char)
    (s : jsstring) : option nat :=
  match pat with
  | [] => Some O
  | WordBoundary :: pat' =>
      if xorb (isWordAt prev) (isWordAt (hd_error s))
      then matchHere ignoreCase pat' prev s else None
  | Lit p :: pat' =>
      match s with
      | x :: s' =>
          if charMatches ignoreCase p x
          then option_map S (matchHere ignoreCase pat' (Some x) s')
          else None
      | [] => None
      end
  | Class p :: pat' =>
      match s with
      | x :: s' =>
          if p x then option_map S (matchHere ignoreCase pat' (Some x) s')
          else None
      | [] => None
      end
  end.

(** [s.replace(re, rep)] with the [g] flag; [rep] holds no dollar sign.
    [skip] counts the units of the current match still to be consumed. *)
Fixpoint replaceFrom (ignoreCase : bool) (pat : regexp) (rep : jsstring)
    (skip : nat) (prev : option char) (s : jsstring) : jsstring :=
  match s with
  | [] =>
      match skip, matchHere ignoreCase pat prev [] with
      | O, Some _ => rep
      | _, _ => []
      end
  | c :: s' =>
      match skip with
      | S k => replaceFrom ignoreCase pat rep k (Some c) s'
      | O =>
          match matchHere ignoreCase pat prev s with
          | Some (S k) => rep ++ replaceFrom ignoreCase pat rep k (Some c) s'
          | Some O => rep ++ c :: replaceFrom ignoreCase pat rep O (Some c) s'
          | None => c :: replaceFrom ignoreCase pat rep O (Some c) s'
          end
      end
  end.

Definition replaceAll (ignoreCase : bool) (pat : regexp) (rep s : jsstring)
  : jsstring :=
  replaceFrom ignoreCase pat rep O None s.

(** [new RegExp(word)] for a [word] without metacharacters. *)
Definition literally (word : jsstring) : regexp := List.map Lit word.

(** [s.split(/\s+/)]: the pieces between maximal runs of white space. *)
Fixpoint splitWs_from (inRun : bool) (cur s : jsstring) : list jsstring :=
  match s with
  | [] => [cur]
  | c :: s' =>
      if isWhiteSpace c
      then if inRun then splitWs_from true [] s'
           else cur :: splitWs_from true [] s'
      else splitWs_from false (cur ++ [c]) s'
  end.

Definition splitWs (s : jsstring) : list jsstring := splitWs_from false [] s.

End JS.

Import JS.

(** ** The transliteration table *)

(** [this.czechFallbacks], in insertion order: the order [Object.entries]
    yields. *)
Definition czechFallbacks : list (jsstring * jsstring) :=
  [ ([225%N], lit "a"); ([269%N], lit "c"); ([271%N], lit "d");
    ([233%N], lit "e"); ([283%N], lit "e"); ([237%N], lit "i");
    ([328%N], lit "n"); ([243%N], lit "o"); ([345%N], lit "r");
    ([353%N], lit "s"); ([357%N], lit "t"); ([250%N], lit "u");
    ([367%N], lit "u"); ([253%N], lit "y"); ([382%N], lit "z");
    ([193%N], lit "A"); ([268%N], lit "C"); ([270%N], lit "D");
    ([201%N], lit "E"); ([282%N], lit "E"); ([205%N], lit "I");
    ([327%N], lit "N"); ([211%N], lit "O"); ([344%N], lit "R");
    ([352%N], lit "S"); ([356%N], lit "T"); ([218%N], lit "U");
    ([366%N], lit "U"); ([221%N], lit "Y"); ([381%N], lit "Z") ].

Definition convertCzechCharacters (text : jsstring) : jsstring :=
  fold_left
    (fun result entry =>
       replaceAll false (literally (fst entry)) (snd entry) result)
    czechFallbacks text.

(** ** The shortening stages *)

Definition isVowel (c : char) : bool :=
  existsb (N.eqb c) (lit "aeiouAEIOU").

(** The callback of [applyVowelRemoval]'s [map]. *)
Definition removeVowelsFromWord (word : jsstring) : jsstring :=
  if len word <=? 3 then word
  else
    let first := index word 0 in
    let last := index word (len word - 1) in
    let middle := substring word 1 (len word - 1) in
    let processedMiddle := replaceAll false [Class isVowel] [] middle in
    let processedMiddle :=
      if (len processedMiddle =? 0) && (1 <? len middle)
      then index middle 0 else processedMiddle in
    first ++ processedMiddle ++ last.

Definition applyVowelRemoval (phrase : jsstring) : jsstring :=
  join [space] (List.map removeVowelsFromWord (split space phrase)).

(** The object literal [commonAbbreviations], in insertion order. *)
Definition commonAbbreviations : list (jsstring * jsstring) :=
  [ (lit "and", lit "&"); (lit "with", lit "w/"); (lit "without", lit "w/o");
    (lit "the", lit "the"); (lit "through", lit "thru");
    (lit "because", lit "bc"); (lit "before", lit "bfr");
    (lit "after", lit "aftr"); (lit "between", lit "btwn");
    (lit "around", lit "arnd"); (lit "tonight", lit "tnght");
    (lit "something", lit "smthg"); (lit "someone", lit "smne");
    (lit "together", lit "tgthr"); (lit "remember", lit "rmbr");
    (lit "should", lit "shld"); (lit "would", lit "wld");
    (lit "could", lit "cld"); (lit "never", lit "nvr");
    (lit "every", lit "evry"); (lit "people", lit "ppl");
    (lit "little", lit "ltl") ].

(** [new RegExp(`\\b${word}\\b`, "gi")]. *)
Definition wholeWord (word : jsstring) : regexp :=
  WordBoundary :: literally word ++ [WordBoundary].

Definition applyMorphemeShortening (phrase : jsstring) : jsstring :=
  fold_left
    (fun result entry =>
       replaceAll true (wholeWord (fst entry)) (snd entry) result)
    commonAbbreviations phrase.

Definition preserveWordShape (word : jsstring) (maxLength : Z) : jsstring :=
  if len word <=? maxLength then word
  else if 3 <=? maxLength then
    let middleLength := maxLength - 2 in
    let middle := substring word 1 (len word - 1) in
    let truncatedMiddle := substring middle 0 middleLength in
    index word 0 ++ truncatedMiddle ++ index word (len word - 1)
  else if 2 <=? maxLength then
    index word 0 ++ index word (len word - 1)
  else index word 0.

(** The [for] loop of [applyAggressiveShortening]; [i] is the loop index
    and [words] the words from index [i] on. *)
Fixpoint aggressiveLoop (totalAvailableChars wordCount i : Z)
    (words : list jsstring) (result : jsstring) (usedChars : Z) : jsstring :=
  match words with
  | [] => result
  | word :: rest =>
      let remainingChars := totalAvailableChars - usedChars in
      let remainingWords := wordCount - i in
      if remainingChars <=? 0 then result
      else
        let targetCharsForWord :=
          Z.max 2 (Z.min (len word) (remainingChars / remainingWords)) in
        let result :=
          match result with [] => result | _ => result ++ [space] end in
        let shortenedWord :=
          if len word <=? targetCharsForWord then word
          else preserveWordShape word targetCharsForWord in
        let result := result ++ shortenedWord in
        aggressiveLoop totalAvailableChars wordCount (i + 1) rest result
          (len result)
  end.

(** [applyAggressiveShortening] once the width of an M is measured. *)
Definition aggressiveShortening (phrase : jsstring) (maxWidth avgCharWidth : Q)
  : jsstring :=
  let words := splitWs phrase in
  let totalAvailableChars := Qfloor (maxWidth / avgCharWidth) in
  aggressiveLoop totalAvailableChars (Z.of_nat (List.length words)) 0 words
    [] 0.

(** ** The document and the console *)

Inductive Call : Type :=
| SetFont (family style : jsstring)
| SetFontSize (size : Q)
| Text (s : jsstring) (x : option Q) (y : Q)
| Line (x1 y1 x2 y2 : Q)
| AddPage
| Save (filename : jsstring).

(** A jsPDF object: the font in force and the calls received so far,
    oldest first. *)
Record Doc : Type := mkDoc {
  fontStyle : jsstring;
  fontSize : Q;
  calls : list Call
}.

(** [new jsPDF()]: helvetica, normal, 16 points, nothing drawn. *)
Definition newDoc : Doc :=
  {| fontStyle := lit "normal"; fontSize := 16; calls := [] |}.

Inductive Log : Type :=
| LogShortening (workingPhrase : jsstring) (textWidth maxWidth : Q)
| LogAfterVowelRemoval (shortened : jsstring)
| LogAfterMorpheme (shortened : jsstring)
| LogAfterCombined (shortened : jsstring)
| LogFinal (final : jsstring)
| LogMidshow (workingText : jsstring) (size textWidth maxWidth : Q).

Record State : Type := mkState {
  doc : Doc;
  console : list Log
}.

Definition M (A : Type) : Type := State -> A * State.

Definition ret {A} (a : A) : M A := fun st => (a, st).

Definition bind {A B} (c : M A) (k : A -> M B) : M B :=
  fun st => let (a, st') := c st in k a st'.

Declare Scope js_scope.
Delimit Scope js_scope with js.
Notation "x <- c ;; k" := (bind c (fun x => k))
  (at level 61, c at next level, right associativity) : js_scope.
Notation "c ;; k" := (bind c (fun _ => k))
  (at level 61, right associativity) : js_scope.

Definition call (c : Call) : M unit :=
  fun st =>
    let d := doc st in
    (tt, {| doc := {| fontStyle := fontStyle d; fontSize := fontSize d;
                      calls := calls d ++ [c] |};
            console := console st |}).

Definition setFontSize (size : Q) : M unit :=
  fun st =>
    let d := doc st in
    (tt, {| doc := {| fontStyle := fontStyle d; fontSize := size;
                      calls := calls d ++ [SetFontSize size] |};
            console := console st |}).

Definition setFont (family style : jsstring) : M unit :=
  fun st =>
    let d := doc st in
    (tt, {| doc := {| fontStyle := style; fontSize := fontSize d;
                      calls := calls d ++ [SetFont family style] |};
            console := console st |}).

Definition consoleLog (l : Log) : M unit :=
  fun st => (tt, {| doc := doc st; console := console st ++ [l] |}).

(** [doc.getTextWidth]: the width, in millimetres, of a text in a font
    style at a font size. *)
Definition oracle : Type := jsstring -> Q -> jsstring -> Q.

Definition getTextWidth (measure : oracle) (text : jsstring) : M Q :=
  fun st => (measure (fontStyle (doc st)) (fontSize (doc st)) text, st).

(** ** The exporter *)

(** The fields set by the constructor. *)
Definition pageWidth : Q := 210.
Definition pageHeight : Q := 297.
Definition margin : Q := 8.
Definition contentWidth : Q := pageWidth - margin * 2.
Definition contentHeight : Q := pageHeight - margin * 2.
Definition PT_TO_MM : Q := 0.3528.

(** An entry of the setlist.  A song carries its title in [song], a break
    its label in [text]; every [type] other than the string midshow is a
    song. *)
Record Item : Type := mkItem {
  type : jsstring;
  song : jsstring;
  text : jsstring;
  duration : option Q;
  notes : option jsstring
}.

(** An entry of the song catalogue. *)
Record SongData : Type := mkSongData {
  name : jsstring;
  songDuration : option Q;
  vibe : option jsstring
}.

(** [item.type !== "midshow"]. *)
Definition isSongItem (item : Item) : bool :=
  negb (JS.eqb (type item) (lit "midshow")).

Definition songCountOf (setlist : list Item) : Z :=
  Z.of_nat (List.length (List.filter isSongItem setlist)).

(** The [forEach] of [calculateSinglePageSizes]: [items] are the entries
    from index [index] on. *)
Fixpoint estimateFrom (items : list Item) (index : Z)
    (songSize midshowSize estimatedHeight : Q) : Q :=
  match items with
  | [] => estimatedHeight
  | item :: rest =>
      let isSong := isSongItem item in
      let fontSize := if isSong then songSize else midshowSize in
      let lineHeight := (fontSize * PT_TO_MM * 1.05)%Q in
      let estimatedHeight :=
        if negb isSong && (0 <? index)
        then (estimatedHeight + fontSize * PT_TO_MM * 0.15)%Q
        else estimatedHeight in
      estimateFrom rest (index + 1) songSize midshowSize
        (estimatedHeight + lineHeight)%Q
  end.

(** The [for (size = 60; size >= 24; size -= 2)] loop, one iteration per
    unit of [fuel]; the result is the pair of [songSize] and [midshowSize]
    on exit. *)
Fixpoint sizeLoop (fuel : nat) (setlist : list Item) (availableHeight : Q)
    (size : Z) (songSize midshowSize : Q) : Q * Q :=
  match fuel with
  | O => (songSize, midshowSize)
  | S fuel' =>
      if 24 <=? size then
        let songSize := inject_Z size in
        let midshowSize := Qmax 16 (inject_Z size * 0.6) in
        let estimatedHeight := estimateFrom setlist 0 songSize midshowSize 0 in
        if Qle_bool estimatedHeight availableHeight
        then (songSize, midshowSize)
        else sizeLoop fuel' setlist availableHeight (size - 2) songSize
               midshowSize
      else (songSize, midshowSize)
  end.

Record FontSizes : Type := mkFontSizes {
  songFontSize : Q;
  midshowFontSize : Q
}.

(** The loop runs at most 19 times: from 60 down to 24 by steps of 2. *)
Definition calculateSinglePageSizes (setlist : list Item) : FontSizes :=
  let availableHeight := (contentHeight - 20)%Q in
  let (songSize, midshowSize) :=
    sizeLoop 19 setlist availableHeight 60 32 20 in
  {| songFontSize := Qmax 24 songSize;
     midshowFontSize := Qmax 14 midshowSize |}.

Definition calculateFontSizes (setlist : list Item) : FontSizes :=
  let songCount := songCountOf setlist in
  if songCount <=? 9 then calculateSinglePageSizes setlist
  else
    let minSongSize := 42%Q in
    let minMidshowSize := 28%Q in
    {| songFontSize := minSongSize; midshowFontSize := minMidshowSize |}.

Section Methods.

Variable measure : oracle.

Local Open Scope js_scope.

Definition applyAggressiveShortening (phrase : jsstring)
    (maxWidth fontSize : Q) : M jsstring :=
  setFontSize fontSize ;;
  avgCharWidth <- getTextWidth measure (lit "M") ;;
  ret (aggressiveShortening phrase maxWidth avgCharWidth).

Definition shortenPhrase (phrase : jsstring) (maxWidth fontSize : Q)
    (isSong : bool) : M jsstring :=
  setFontSize fontSize ;;
  let workingPhrase := convertCzechCharacters phrase in
  if negb isSong then ret workingPhrase
  else
    textWidth <- getTextWidth measure workingPhrase ;;
    if Qle_bool textWidth (maxWidth * 0.9) then ret workingPhrase
    else
      consoleLog (LogShortening workingPhrase textWidth maxWidth) ;;
      let shortened := applyVowelRemoval workingPhrase in
      consoleLog (LogAfterVowelRemoval shortened) ;;
      w1 <- getTextWidth measure shortened ;;
      if Qle_bool w1 maxWidth then ret shortened
      else
        let shortened := applyMorphemeShortening workingPhrase in
        consoleLog (LogAfterMorpheme shortened) ;;
        w2 <- getTextWidth measure shortened ;;
        if Qle_bool w2 maxWidth then ret shortened
        else
          let shortened :=
            applyVowelRemoval (applyMorphemeShortening workingPhrase) in
          consoleLog (LogAfterCombined shortened) ;;
          w3 <- getTextWidth measure shortened ;;
          if Qle_bool w3 maxWidth then ret shortened
          else
            final <- applyAggressiveShortening shortened maxWidth fontSize ;;
            consoleLog (LogFinal final) ;;
            ret final.

(** The [while] loop of [calculateMidshowFontSize], one iteration per unit
    of [fuel]; the result is the pair of [fontSize] and [textWidth] on
    exit. *)
Fixpoint midshowLoop (fuel : nat) (workingText : jsstring) (maxWidth : Q)
    (minFontSize fontSize textWidth : Q) : M (Q * Q) :=
  match fuel with
  | O => ret (fontSize, textWidth)
  | S fuel' =>
      if negb (Qle_bool textWidth maxWidth)
         && negb (Qle_bool fontSize minFontSize)
      then
        let fontSize := (fontSize - 1)%Q in
        setFontSize fontSize ;;
        textWidth <- getTextWidth measure workingText ;;
        midshowLoop fuel' workingText maxWidth minFontSize fontSize textWidth
      else ret (fontSize, textWidth)
  end.

(** The loop body lowers [fontSize] by one while it is above 8, so it runs
    fewer than [baseFontSize] times. *)
Definition calculateMidshowFontSize (text : jsstring)
    (maxWidth baseFontSize : Q) : M Q :=
  let workingText := convertCzechCharacters text in
  let fontSize := baseFontSize in
  let minFontSize := 8%Q in
  setFontSize fontSize ;;
  textWidth <- getTextWidth measure workingText ;;
  r <- midshowLoop (Z.to_nat (Qceiling baseFontSize)) workingText maxWidth
         minFontSize fontSize textWidth ;;
  consoleLog (LogMidshow workingText (fst r) (snd r) maxWidth) ;;
  ret (fst r).

End Methods.

Definition helvetica : jsstring := lit "helvetica".

(** [a || dflt] on an optional number: [undefined] and 0 are falsy. *)
Definition numberOr (a : option Q) (dflt : Q) : Q :=
  match a with
  | Some q => if Qeq_bool q 0 then dflt else q
  | None => dflt
  end.

(** [a || dflt] on an optional string: [undefined] and the empty string
    are falsy. *)
Definition stringOr (a : option jsstring) (dflt : jsstring) : jsstring :=
  match a with
  | Some (c :: s) => c :: s
  | _ => dflt
  end.

Definition calculateTotalDuration (setlist : list Item) : Q :=
  fold_left
    (fun total item =>
       if JS.eqb (type item) (lit "midshow") then (total + 1)%Q
       else (total + numberOr (duration item) 3)%Q)
    setlist 0%Q.

(** What [export] can see and change outside its arguments: the field
    [this.doc], whether the jsPDF library is loaded in [window.jspdf],
    the global [window.songs], and the console. *)
Record World : Type := mkWorld {
  this_doc : option Doc;
  window_jspdf : bool;
  window_songs : option (list SongData);
  output : list Log
}.

Inductive Completion (A : Type) : Type :=
| Normal (value : A)
| Throw (error : jsstring).

Arguments Normal {A} value.
Arguments Throw {A} error.

Section Pages.

Variable measure : oracle.

(** [String(n)] and [new Date().toLocaleDateString()], both supplied by
    the host. *)
Variable numberToString : Q -> jsstring.
Variable today : jsstring.

Local Open Scope js_scope.

(** [s.padStart(2, "0")]. *)
Definition padStart2 (s : jsstring) : jsstring :=
  List.repeat 48%N (2 - List.length s) ++ s.

Definition formatTime (minutes : Q) : jsstring :=
  let totalSeconds := Qfloor (minutes * 60 + (1 # 2))%Q in
  let mins := totalSeconds / 60 in
  let secs := Z.rem totalSeconds 60 in
  padStart2 (numberToString (inject_Z mins)) ++ lit ":"
    ++ padStart2 (numberToString (inject_Z secs)).

(** The [forEach] of [addSetlistContent]; the result is [yPosition]. *)
Fixpoint stageRows (items : list Item) (index : Z) (sizes : FontSizes)
    (forceSinglePage : bool) (yPosition : Q) : M Q :=
  match items with
  | [] => ret yPosition
  | item :: rest =>
      let isSong := isSongItem item in
      let text := if isSong then song item else text item in
      let maxWidth := if isSong then contentWidth else (contentWidth - 15)%Q in
      actualFontSize <-
        (if isSong then ret (songFontSize sizes)
         else calculateMidshowFontSize measure text maxWidth
                (midshowFontSize sizes)) ;;
      let yPosition :=
        if negb isSong && (0 <? index) then
          let extraSpace :=
            if forceSinglePage then (actualFontSize * PT_TO_MM * 0.1)%Q
            else (actualFontSize * PT_TO_MM * 0.2)%Q in
          (yPosition + extraSpace)%Q
        else yPosition in
      displayText <- shortenPhrase measure text maxWidth actualFontSize isSong ;;
      setFontSize actualFontSize ;;
      (if negb isSong then setFont helvetica (lit "italic")
       else setFont helvetica (lit "bold")) ;;
      let xPos := if isSong then margin else (margin + 15)%Q in
      let baselineOffset := (actualFontSize * PT_TO_MM * 0.8)%Q in
      call (Text displayText (Some xPos) (yPosition + baselineOffset)%Q) ;;
      let lineHeight :=
        if forceSinglePage then (actualFontSize * PT_TO_MM * 1.05)%Q
        else (actualFontSize * PT_TO_MM * 1.15)%Q in
      let yPosition := (yPosition + lineHeight)%Q in
      yPosition <-
        (if negb forceSinglePage
            && negb (Qle_bool (yPosition + lineHeight) (pageHeight - margin))
         then call AddPage ;; ret (margin + 15)%Q
         else ret yPosition) ;;
      stageRows rest (index + 1) sizes forceSinglePage yPosition
  end.

Definition addSetlistContent (setlist : list Item) : M unit :=
  let sizes := calculateFontSizes setlist in
  let songCount := songCountOf setlist in
  let forceSinglePage := songCount <=? 9 in
  let yPosition := (margin + 15)%Q in
  setFont helvetica (lit "bold") ;;
  _ <- stageRows setlist 0 sizes forceSinglePage yPosition ;;
  ret tt.

(** The [forEach] of [wrapText]; the result is the pair of [lines] and
    [currentLine]. *)
Fixpoint wrapWords (words : list jsstring) (maxWidth : Q)
    (lines : list jsstring) (currentLine : jsstring)
  : M (list jsstring * jsstring) :=
  match words with
  | [] => ret (lines, currentLine)
  | word :: rest =>
      let testLine :=
        currentLine ++ (match currentLine with [] => [] | _ => [space] end)
          ++ word in
      testWidth <- getTextWidth measure testLine ;;
      if Qle_bool testWidth maxWidth
      then wrapWords rest maxWidth lines testLine
      else
        let lines :=
          match currentLine with [] => lines | _ => lines ++ [currentLine] end in
        wrapWords rest maxWidth lines word
  end.

Definition wrapText (text : jsstring) (maxWidth fontSize : Q)
  : M (list jsstring) :=
  setFontSize fontSize ;;
  let words := split space text in
  r <- wrapWords words maxWidth [] [] ;;
  let (lines, currentLine) := r in
  ret (match currentLine with [] => lines | _ => lines ++ [currentLine] end).

(** The columns of the organizer table; [colPositions.notes] is not
    defined in the source, so the notes are drawn at an undefined [x]. *)
Definition colTime : Q := margin.
Definition colTitle : Q := margin + 25.
Definition colVibe : Q := margin + 110.
Definition colDuration : Q := margin + 160.

Definition tableHeader (yPosition : Q) : M unit :=
  call (Text (lit "TIME") (Some colTime) yPosition) ;;
  call (Text (lit "TITLE") (Some colTitle) yPosition) ;;
  call (Text (lit "VIBE/TYPE") (Some colVibe) yPosition) ;;
  call (Text (lit "DURATION") (Some colDuration) yPosition).

(** The inner [forEach] over the wrapped title; the result is
    [titleYOffset]. *)
Fixpoint titleLines (wrappedTitle : list jsstring)
    (yPosition lineHeight titleYOffset : Q) : M Q :=
  match wrappedTitle with
  | [] => ret titleYOffset
  | line :: rest =>
      call (Text line (Some colTitle) (yPosition + titleYOffset)%Q) ;;
      titleLines rest yPosition lineHeight
        (titleYOffset + lineHeight * 0.9)%Q
  end.

(** The [forEach] over the rows of the organizer table; [windowSongs] is
    the value of [window.songs]; the result is [yPosition]. *)
Fixpoint organizerRows (items : list Item)
    (windowSongs : option (list SongData))
    (lineHeight yPosition currentTime : Q) : M Q :=
  match items with
  | [] => ret yPosition
  | item :: rest =>
      yPosition <-
        (if negb (Qle_bool yPosition (pageHeight - margin - 20)) then
           call AddPage ;;
           let yPosition := (margin + 25)%Q in
           setFont helvetica (lit "bold") ;;
           setFontSize 10 ;;
           call (Line margin (yPosition - 1) (margin + contentWidth)
                   (yPosition - 1))%Q ;;
           tableHeader yPosition ;;
           let yPosition := (yPosition + 5)%Q in
           call (Line margin yPosition (margin + contentWidth) yPosition)%Q ;;
           let yPosition := (yPosition + lineHeight * 1)%Q in
           setFont helvetica (lit "normal") ;;
           setFontSize 9 ;;
           ret yPosition
         else ret yPosition) ;;
      let isSong := isSongItem item in
      let songData :=
        match isSong, windowSongs with
        | true, Some songs =>
            List.find (fun s => JS.eqb (name s) (song item)) songs
        | _, _ => None
        end in
      let duration :=
        if isSong
        then numberOr (match songData with
                       | Some s => songDuration s
                       | None => None
                       end) 3
        else 1%Q in
      let startTime := formatTime currentTime in
      let endTime := formatTime (currentTime + duration) in
      call (Text (startTime ++ lit " - " ++ endTime) (Some colTime) yPosition) ;;
      let title :=
        convertCzechCharacters (if isSong then song item else text item) in
      let maxTitleWidth := 80%Q in
      wrappedTitle <- wrapText title maxTitleWidth 9 ;;
      titleYOffset <- titleLines wrappedTitle yPosition lineHeight 0 ;;
      (if isSong then
         let vibe :=
           convertCzechCharacters
             (stringOr (match songData with
                        | Some s => vibe s
                        | None => None
                        end) (lit "Standard")) in
         call (Text vibe (Some colVibe) yPosition)
       else
         setFont helvetica (lit "italic") ;;
         call (Text (lit "Midshow Break") (Some colVibe) yPosition) ;;
         setFont helvetica (lit "normal")) ;;
      call (Text (numberToString duration ++ lit ":00") (Some colDuration)
              yPosition) ;;
      (match notes item with
       | Some (c :: s) =>
           call (Text (convertCzechCharacters (c :: s)) None yPosition)
       | _ => ret tt
       end) ;;
      let currentTime := (currentTime + duration)%Q in
      let rowHeight := Qmax lineHeight titleYOffset in
      organizerRows rest windowSongs lineHeight (yPosition + rowHeight)%Q
        currentTime
  end.

Definition addOrganizerSection (setlist : list Item)
    (windowSongs : option (list SongData)) : M unit :=
  let yPosition := (margin + 10)%Q in
  let lineHeight := (14 * PT_TO_MM)%Q in
  let sectionSpacing := (8 * PT_TO_MM)%Q in
  setFont helvetica (lit "bold") ;;
  setFontSize 18 ;;
  call (Text (lit "SETLIST - ORGANIZER INFORMATION") (Some margin) yPosition) ;;
  let yPosition := (yPosition + lineHeight * 1.5)%Q in
  setFont helvetica (lit "normal") ;;
  setFontSize 11 ;;
  let totalDuration := calculateTotalDuration setlist in
  call (Text (lit "Total Duration: " ++ formatTime totalDuration)
          (Some margin) yPosition) ;;
  let yPosition := (yPosition + lineHeight * 0.8)%Q in
  call (Text (lit "Total Songs: "
                ++ numberToString (inject_Z (songCountOf setlist)))
          (Some margin) yPosition) ;;
  let yPosition := (yPosition + sectionSpacing * 2.5)%Q in
  setFont helvetica (lit "bold") ;;
  setFontSize 10 ;;
  call (Line margin (yPosition - 5) (margin + contentWidth)
          (yPosition - 5))%Q ;;
  tableHeader yPosition ;;
  let yPosition := (yPosition + 3)%Q in
  call (Line margin yPosition (margin + contentWidth) yPosition)%Q ;;
  let yPosition := (yPosition + lineHeight * 0.8)%Q in
  setFont helvetica (lit "normal") ;;
  setFontSize 9 ;;
  yPosition <- organizerRows setlist windowSongs lineHeight yPosition 0 ;;
  let yPosition := (yPosition + sectionSpacing)%Q in
  call (Line margin yPosition (margin + contentWidth) yPosition)%Q ;;
  let yPosition := (yPosition + lineHeight)%Q in
  setFont helvetica (lit "bold") ;;
  setFontSize 11 ;;
  call (Text (lit "SUMMARY") (Some margin) yPosition) ;;
  let yPosition := (yPosition + lineHeight)%Q in
  setFont helvetica (lit "normal") ;;
  setFontSize 10 ;;
  let songCount := songCountOf setlist in
  let midshowCount := Z.of_nat (List.length setlist) - songCount in
  call (Text (lit "Total Songs: " ++ numberToString (inject_Z songCount))
          (Some margin) yPosition) ;;
  let yPosition := (yPosition + lineHeight * 0.8)%Q in
  call (Text (lit "Midshow Breaks: "
                ++ numberToString (inject_Z midshowCount))
          (Some margin) yPosition) ;;
  let yPosition := (yPosition + lineHeight * 0.8)%Q in
  call (Text (lit "Estimated Total Time: " ++ formatTime totalDuration)
          (Some margin) yPosition) ;;
  let yPosition := (yPosition + lineHeight * 0.8)%Q in
  call (Text (lit "Expected End Time: " ++ formatTime totalDuration
                ++ lit " after start")
          (Some margin) yPosition).

Definition save : M unit :=
  call (Save (lit "setlist-" ++ replaceAll false [Lit 47%N] (lit "-") today
                ++ lit ".pdf")).

(** [export(setlist, songs = null)]; [songs] is [None] for [null]. *)
Definition export (setlist : list Item) (songs : option (list SongData))
    (w : World) : Completion World :=
  if Z.of_nat (List.length setlist) =? 0 then Normal w
  else if negb (window_jspdf w) then Throw (lit "TypeError")
  else
    let windowSongs :=
      match songs with Some s => Some s | None => window_songs w end in
    let body :=
      addSetlistContent setlist ;;
      call AddPage ;;
      addOrganizerSection setlist windowSongs ;;
      save in
    let (_, st) := body {| doc := newDoc; console := output w |} in
    Normal {| this_doc := Some (doc st);
              window_jspdf := window_jspdf w;
              window_songs := windowSongs;
              output := console st |}.

End Pages.

(** A concrete width oracle for examples: every code unit is as wide as
    half the font size, converted to millimetres, in every style. *)
Definition fixedPitch : oracle :=
  fun _ size text => (inject_Z (len text) * (size * PT_TO_MM * 0.5))%Q.

(** ** Definitions used to state the properties *)

(** One entry of the transliteration table acting on one code unit. *)
Definition replaceUnit (entry : char * char) (c : char) : char :=
  if N.eqb (fst entry) c then snd entry else c.

(** The entries of [czechFallbacks] as pairs of code units. *)
Definition czechUnits : list (char * char) :=
  List.map (fun e => (hd 0%N (fst e), hd 0%N (snd e))) czechFallbacks.

Definition translitUnit (table : list (char * char)) (c : char) : char :=
  fold_left (fun c e => replaceUnit e c) table c.

(** An entry whose key and output are one code unit each. *)
Definition unitEntry (e : jsstring * jsstring) : Prop :=
  List.length (fst e) = 1%nat /\ List.length (snd e) = 1%nat.

(** No output of the table is one of its keys. *)
Definition noOutputIsKey (table : list (char * char)) : bool :=
  forallb
    (fun a => negb (existsb (N.eqb a) (List.map fst table)))
    (List.map snd table).

(** The shortening stages of the specification's data model. *)
Inductive Stage : Type :=
| Identity
| VowelRemoval
| MorphemeSubstitution
| VowelRemovalAfterMorpheme
| AggressiveTruncation.

(** The stage whose output a console line of [shortenPhrase] reports. *)
Definition stageOfLog (l : Log) : list Stage :=
  match l with
  | LogAfterVowelRemoval _ => [VowelRemoval]
  | LogAfterMorpheme _ => [MorphemeSubstitution]
  | LogAfterCombined _ => [VowelRemovalAfterMorpheme]
  | LogFinal _ => [AggressiveTruncation]
  | _ => []
  end.

(** The stages a run of [shortenPhrase] went through, oldest first, read
    off the lines it added to the console. *)
Definition stagesTried (before after : State) : list Stage :=
  flat_map stageOfLog
    (skipn (List.length (console before)) (console after)).

(** A state with a fresh document and an empty console. *)
Definition freshState : State := {| doc := newDoc; console := [] |}.

(** The width [shortenPhrase] measures for [t] once it has set the font
    size: the style is the one in force in the starting state. *)
Definition widthAt (measure : oracle) (st : State) (fontSize : Q)
    (t : jsstring) : Q :=
  measure (fontStyle (doc st)) fontSize t.

(** The vowel-removal rule for one word as the specification words it:
    first and last unit kept, vowels stripped from the interior, the
    interior's first unit kept when stripping leaves nothing of an interior
    longer than one unit; words of at most three units untouched. *)
Definition interiorKept (interior : jsstring) : jsstring :=
  match List.filter (fun c => negb (isVowel c)) interior with
  | [] => if 1 <? len interior then firstn 1 interior else []
  | stripped => stripped
  end.

Definition shortenWord (word : jsstring) : jsstring :=
  match word with
  | first :: rest =>
      if 3 <? len word
      then first :: interiorKept (removelast rest) ++ [last rest first]
      else word
  | [] => []
  end.

(** The vowel-removal stage read with white-space-delimited words, the
    delimiting the aggressive stage applies. *)
Definition vowelRemovalOfWhiteSpaceWords (phrase : jsstring) : jsstring :=
  join [space] (List.map shortenWord (splitWs phrase)).

(** The phrase holds a unit that is not white space. *)
Definition hasVisibleUnit (phrase : jsstring) : Prop :=
  exists c, In c phrase /\ isWhiteSpace c = false.

(** The first piece of a split is not the empty string. *)
Definition firstNonEmpty (pieces : list jsstring) : Prop :=
  match pieces with
  | p :: _ => p <> []
  | [] => False
  end.

(** The candidate font sizes of the single-page search, largest first. *)
Definition candidates : list Z :=
  [60; 58; 56; 54; 52; 50; 48; 46; 44; 42; 40; 38; 36; 34; 32; 30; 28; 26; 24].

(** The usable height of the page: the content height less a reserve of
    20 mm. *)
Definition usableHeight : Q := contentHeight - 20.

(** The estimated stacked height as the specification words it.  An entry
    takes its font size times 0.3528 times 1.05; a break uses the break
    size [max(16, candidate * 0.6)] and, unless it is the first entry of
    the setlist, is preceded by a gap of its size times 0.3528 times
    0.15. *)
Definition entryHeight (candidate : Q) (isFirst : bool) (item : Item) : Q :=
  let breakFontSize := Qmax 16 (candidate * 0.6) in
  if isSongItem item then candidate * 0.3528 * 1.05
  else breakFontSize * 0.3528 * 1.05
       + (if isFirst then 0 else breakFontSize * 0.3528 * 0.15).

Fixpoint heights (candidate : Q) (isFirst : bool) (items : list Item) : Q :=
  match items with
  | [] => 0
  | item :: rest =>
      entryHeight candidate isFirst item + heights candidate false rest
  end.

Definition stackedHeight (setlist : list Item) (candidate : Q) : Q :=
  heights candidate true setlist.

(** The test the loop of [calculateSinglePageSizes] makes at [size]. *)
Definition fitsBudget (setlist : list Item) (availableHeight : Q) (size : Z)
  : bool :=
  Qle_bool
    (estimateFrom setlist 0 (inject_Z size) (Qmax 16 (inject_Z size * 0.6)) 0)
    availableHeight.

(** The loop of [calculateSinglePageSizes] run over a list of sizes. *)
Fixpoint searchCandidates (fit : Z -> bool) (sizes : list Z)
    (songSize midshowSize : Q) : Q * Q :=
  match sizes with
  | [] => (songSize, midshowSize)
  | size :: rest =>
      let songSize := inject_Z size in
      let midshowSize := Qmax 16 (inject_Z size * 0.6) in
      if fit size then (songSize, midshowSize)
      else searchCandidates fit rest songSize midshowSize
  end.

(** Setlist entries for examples. *)
Definition songEntry (title : jsstring) : Item :=
  {| type := lit "song"; song := title; text := []; duration := None;
     notes := None |}.

Definition breakEntry (label : jsstring) : Item :=
  {| type := lit "midshow"; song := []; text := label; duration := None;
     notes := None |}.

(** The texts drawn by a sequence of calls, each with the font size in
    force when it is drawn; [size] is the size in force at the start. *)
Fixpoint textSizes (size : Q) (cs : list Call) : list (jsstring * Q) :=
  match cs with
  | [] => []
  | SetFontSize size' :: rest => textSizes size' rest
  | Text s _ _ :: rest => (s, size) :: textSizes size rest
  | _ :: rest => textSizes size rest
  end.

(** A break label of 120 units, too wide for its column at every size the
    loop of [calculateMidshowFontSize] can try. *)
Definition longLabel : jsstring := List.repeat 120%N 120.

(** Five songs followed by ten breaks with the long label. *)
Definition longBreaks : list Item :=
  List.repeat (songEntry (lit "Song")) 5
    ++ List.repeat (breakEntry longLabel) 10.

(** Equality of two strings under the [i] flag. *)
Fixpoint equalIgnoringCase (a b : jsstring) : bool :=
  match a, b with
  | [], [] => true
  | x :: a', y :: b' => charMatches true x y && equalIgnoringCase a' b'
  | _, _ => false
  end.

(** The abbreviation of one word: the output of the first entry of the
    dictionary whose key equals the word up to case, and the word itself
    when there is none. *)
Definition abbreviateWith (dictionary : list (jsstring * jsstring))
    (word : jsstring) : jsstring :=
  match List.find (fun e => equalIgnoringCase (fst e) word) dictionary with
  | Some e => snd e
  | None => word
  end.

Definition abbreviate : jsstring -> jsstring :=
  abbreviateWith commonAbbreviations.

(** [f] applied to every maximal run of word characters of a string, the
    other units kept; [run] is the run read so far. *)
Definition onRun (f : jsstring -> jsstring) (run : jsstring) : jsstring :=
  match run with [] => [] | _ => f run end.

Fixpoint mapRunsFrom (f : jsstring -> jsstring) (run s : jsstring)
  : jsstring :=
  match s with
  | [] => onRun f run
  | c :: s' =>
      if isWordChar c then mapRunsFrom f (run ++ [c]) s'
      else onRun f run ++ c :: mapRunsFrom f [] s'
  end.

Definition mapRuns (f : jsstring -> jsstring) (s : jsstring) : jsstring :=
  mapRunsFrom f [] s.

(** One pass of the loop of [applyMorphemeShortening]. *)
Definition morphemePass (entry : jsstring * jsstring) (s : jsstring)
  : jsstring :=
  replaceAll true (wholeWord (fst entry)) (snd entry) s.

Definition morphemePasses (dictionary : list (jsstring * jsstring))
    (s : jsstring) : jsstring :=
  fold_left (fun result entry => morphemePass entry result) dictionary s.

(** A key made of lower-case ASCII letters, at least one. *)
Definition isLowerLetter (c : char) : bool := ((97 <=? c) && (c <=? 122))%N.

Definition validKey (key : jsstring) : bool :=
  match key with [] => false | _ => forallb isLowerLetter key end.

(** Every key is valid and the passes that follow an entry leave its
    output alone. *)
Fixpoint settled (dictionary : list (jsstring * jsstring)) : bool :=
  match dictionary with
  | [] => true
  | e :: rest =>
      validKey (fst e) && JS.eqb (morphemePasses rest (snd e)) (snd e)
      && settled rest
  end.

(** What a replacement leaves of the text after a run of word characters:
    the separator that follows, then the rest processed from there. *)
Definition afterRun (key abbrev tail : jsstring) : jsstring :=
  match tail with
  | [] => []
  | c :: rest => c :: replaceFrom true (wholeWord key) abbrev O (Some c) rest
  end.

(** The text after a run is empty or starts outside the word characters. *)
Definition startsOutsideWord (tail : jsstring) : Prop :=
  match tail with
  | [] => True
  | c :: _ => isWordChar c = false
  end.

(** [c], as a one-unit string, is a key of [czechFallbacks]. *)
Definition isCzechKey (c : char) : bool :=
  existsb (fun e => JS.eqb (fst e) [c]) czechFallbacks.

(** No abbreviation of the dictionary is longer than its key. *)
Definition abbreviationsShorter (dictionary : list (jsstring * jsstring))
  : bool :=
  forallb
    (fun e => (List.length (snd e) <=? List.length (fst e))%nat) dictionary.

(** The passes of the dictionary leave each of its abbreviations alone. *)
Definition abbreviationsFixed (dictionary : list (jsstring * jsstring))
  : bool :=
  forallb
    (fun e => JS.eqb (morphemePasses dictionary (snd e)) (snd e)) dictionary.

(** The units the words of a phrase take when each is followed by one
    space. *)
Fixpoint weightOf (ws : list jsstring) : Z :=
  match ws with
  | [] => 0
  | w :: rest => len w + 1 + weightOf rest
  end.

(** The duration [calculateTotalDuration] counts for an entry: one minute
    for a break, the entry's own duration or three minutes for a song. *)
Definition countedDuration (item : Item) : Q :=
  if isSongItem item then numberOr (duration item) 3 else 1.

From Stdlib Require Import DecimalString.

(** [String(n)] on whole numbers, for examples. *)
Definition wholeNumberToString (q : Q) : jsstring :=
  lit (NilZero.string_of_int (Z.to_int (Qfloor q))).

(** The line under construction, as a list of at most one line. *)
Definition pending (currentLine : jsstring) : list jsstring :=
  match currentLine with [] => [] | _ => [currentLine] end.

(** Every call a computation adds to the document satisfies [P]; calls
    are only ever added at the end. *)
Definition emitsOnly {A : Type} (P : Call -> Prop) (c : M A) : Prop :=
  forall st,
  exists added,
    calls (doc (snd (c st))) = calls (doc st) ++ added /\ Forall P added.

(** The calls that set the font. *)
Definition isFontCall (c : Call) : Prop :=
  match c with
  | SetFont _ _ | SetFontSize _ => True
  | _ => False
  end.


(** The calls of the stage view: fonts and texts, and page breaks unless
    the view is held on a single page. *)
Definition isStageCall (forceSinglePage : bool) (c : Call) : Prop :=
  match c with
  | SetFont _ _ | SetFontSize _ | Text _ _ _ => True
  | AddPage => forceSinglePage = false
  | _ => False
  end.

(** The texts drawn by a sequence of calls, in order. *)
Fixpoint textsOf (cs : list Call) : list jsstring :=
  match cs with
  | [] => []
  | Text s _ _ :: rest => s :: textsOf rest
  | _ :: rest => textsOf rest
  end.

(** What the stage view shows for an entry: a break's label
    transliterated, a song's title in a form that is not longer. *)
Definition showsEntry (item : Item) (shown : jsstring) : Prop :=
  if isSongItem item then len shown <= len (song item)
  else shown = convertCzechCharacters (text item).

(** * Properties *)

(** ** Transliteration *)

Section Transliteration.

Lemma translitUnit_cons e table c :
  translitUnit (e :: table) c = translitUnit table (replaceUnit e c).
Proof. reflexivity. Qed.

Lemma replaceFrom_literal_unit k a prev s :
  replaceFrom false [Lit k] [a] O prev s = List.map (replaceUnit (k, a)) s.
Proof.
  revert prev; induction s as [|c s IH]; intros prev; [reflexivity|].
  cbn [replaceFrom matchHere charMatches List.map].
  unfold replaceUnit at 1; cbn [fst snd].
  destruct (N.eqb k c); cbn [option_map]; rewrite IH; reflexivity.
Qed.

Lemma fold_replace_units (table : list (jsstring * jsstring)) :
  Forall unitEntry table ->
  forall s,
    fold_left
      (fun result entry =>
         replaceAll false (literally (fst entry)) (snd entry) result)
      table s
    = List.map
        (translitUnit
           (List.map (fun e => (hd 0%N (fst e), hd 0%N (snd e))) table)) s.
Proof.
  induction 1 as [|[k a] table [Hk Ha] _ IH]; intros s.
  - cbn. symmetry. apply map_id.
  - cbn [fold_left List.map fst snd]. rewrite IH.
    destruct k as [|k [|? ?]]; try discriminate Hk.
    destruct a as [|a [|? ?]]; try discriminate Ha.
    unfold replaceAll; cbn [literally List.map hd].
    rewrite replaceFrom_literal_unit, map_map.
    reflexivity.
Qed.

Lemma convertCzechCharacters_map s :
  convertCzechCharacters s = List.map (translitUnit czechUnits) s.
Proof.
  unfold convertCzechCharacters, czechUnits.
  apply fold_replace_units.
  unfold czechFallbacks.
  repeat (constructor; [split; reflexivity|]).
  constructor.
Qed.

(** A code unit that is no key of the table is left alone. *)
Lemma translitUnit_not_key table c :
  ~ In c (List.map fst table) -> translitUnit table c = c.
Proof.
  revert c; induction table as [|[k a] table IH]; intros c Hc; [reflexivity|].
  cbn in Hc. rewrite translitUnit_cons.
  unfold replaceUnit; cbn [fst snd].
  destruct (N.eqb_spec k c) as [->|_]; [tauto|].
  apply IH. tauto.
Qed.

(** The image of a code unit is the unit itself or one of the table's
    outputs, provided no output is a key. *)
Lemma translitUnit_range (outs : list char) table c :
  (forall a, In a outs -> ~ In a (List.map fst table)) ->
  incl (List.map snd table) outs ->
  translitUnit table c = c \/ In (translitUnit table c) outs.
Proof.
  revert c; induction table as [|[k a] table IH]; intros c Hout Hincl.
  - left; reflexivity.
  - rewrite translitUnit_cons.
    unfold replaceUnit; cbn [fst snd].
    assert (Hout' : forall x, In x outs -> ~ In x (List.map fst table)).
    { intros x Hx Hin. apply (Hout x Hx). right; exact Hin. }
    assert (Hincl' : incl (List.map snd table) outs).
    { intros x Hx. apply Hincl. right; exact Hx. }
    destruct (N.eqb_spec k c) as [->|_].
    + right.
      assert (Ha : In a outs) by (apply Hincl; left; reflexivity).
      rewrite translitUnit_not_key; [exact Ha|]. apply Hout'; exact Ha.
    + apply IH; assumption.
Qed.

Lemma noOutputIsKey_spec table :
  noOutputIsKey table = true ->
  forall a, In a (List.map snd table) -> ~ In a (List.map fst table).
Proof.
  unfold noOutputIsKey. rewrite forallb_forall. intros H a Ha Hin.
  specialize (H a Ha). rewrite negb_true_iff in H.
  assert (E : existsb (N.eqb a) (List.map fst table) = true).
  { apply existsb_exists. exists a. split; [exact Hin|apply N.eqb_refl]. }
  congruence.
Qed.

Lemma translitUnit_idempotent table c :
  noOutputIsKey table = true ->
  translitUnit table (translitUnit table c) = translitUnit table c.
Proof.
  intros H. pose proof (noOutputIsKey_spec table H) as Hout.
  destruct (@translitUnit_range (List.map snd table) table c Hout
              (incl_refl _)) as [E|E].
  - rewrite E. exact E.
  - apply translitUnit_not_key. apply Hout. exact E.
Qed.

(** C7.  Transliteration is idempotent: converting an already converted
    string changes nothing, because no output of [czechFallbacks] is one
    of its keys. *)
Theorem convertCzechCharacters_idempotent (s : jsstring) :
  convertCzechCharacters (convertCzechCharacters s)
  = convertCzechCharacters s.
Proof.
  rewrite !convertCzechCharacters_map, map_map.
  apply map_ext. intros c.
  apply translitUnit_idempotent. reflexivity.
Qed.

End Transliteration.

(** ** The progressive shortener *)

Section Shortener.

Variable measure : oracle.

Lemma skipn_app_exact {A} (l l' : list A) :
  skipn (List.length l) (l ++ l') = l'.
Proof. induction l; cbn; auto. Qed.

Lemma stagesTried_app before after logs :
  console after = console before ++ logs ->
  stagesTried before after = flat_map stageOfLog logs.
Proof.
  unfold stagesTried. intros ->. rewrite skipn_app_exact. reflexivity.
Qed.

Lemma stagesTried_same before after :
  console after = console before -> stagesTried before after = [].
Proof.
  intros H. apply (@stagesTried_app before after []).
  rewrite app_nil_r. exact H.
Qed.

Ltac run_shorten :=
  unfold shortenPhrase, applyAggressiveShortening, bind, ret, setFontSize,
    getTextWidth, consoleLog, widthAt;
  cbn [negb doc console fontStyle fontSize fst snd].

(** Below the trigger threshold the phrase comes back as transliterated
    and nothing is logged. *)
Lemma shortenPhrase_below_threshold phrase maxWidth size st :
  Qle_bool (widthAt measure st size (convertCzechCharacters phrase))
    (maxWidth * 0.9) = true ->
  let run := shortenPhrase measure phrase maxWidth size true st in
  fst run = convertCzechCharacters phrase
  /\ console (snd run) = console st.
Proof.
  intros H. revert H. run_shorten. intros ->. split; reflexivity.
Qed.

(** Above the threshold: the four ways out, each with the text returned
    and the lines added to the console. *)
Lemma shortenPhrase_above_threshold phrase maxWidth size st :
  Qle_bool (widthAt measure st size (convertCzechCharacters phrase))
    (maxWidth * 0.9) = false ->
  let w := convertCzechCharacters phrase in
  let run := shortenPhrase measure phrase maxWidth size true st in
  let fit t := Qle_bool (widthAt measure st size t) maxWidth in
  let s1 := applyVowelRemoval w in
  let s2 := applyMorphemeShortening w in
  let s3 := applyVowelRemoval (applyMorphemeShortening w) in
  let s4 := aggressiveShortening s3 maxWidth (widthAt measure st size (lit "M")) in
  let l0 := LogShortening w (widthAt measure st size w) maxWidth in
  (fit s1 = true ->
     fst run = s1
     /\ console (snd run) = console st ++ [l0; LogAfterVowelRemoval s1])
  /\ (fit s1 = false -> fit s2 = true ->
        fst run = s2
        /\ console (snd run)
           = console st
               ++ [l0; LogAfterVowelRemoval s1; LogAfterMorpheme s2])
  /\ (fit s1 = false -> fit s2 = false -> fit s3 = true ->
        fst run = s3
        /\ console (snd run)
           = console st
               ++ [l0; LogAfterVowelRemoval s1; LogAfterMorpheme s2;
                   LogAfterCombined s3])
  /\ (fit s1 = false -> fit s2 = false -> fit s3 = false ->
        fst run = s4
        /\ console (snd run)
           = console st
               ++ [l0; LogAfterVowelRemoval s1; LogAfterMorpheme s2;
                   LogAfterCombined s3; LogFinal s4]).
Proof.
  intros H. revert H. run_shorten. intros ->.
  cbn [doc console fontStyle fontSize fst snd].
  repeat split; intros;
    repeat match goal with
           | E : Qle_bool _ _ = _ |- _ =>
               rewrite E; clear E;
               cbn [doc console fontStyle fontSize fst snd]
           end;
    rewrite <- ?app_assoc; reflexivity.
Qed.

Lemma Qle_bool_false x y : Qle_bool x y = false <-> (y < x)%Q.
Proof.
  split; intros H.
  - apply Qnot_le_lt. intros G. apply Qle_bool_iff in G. congruence.
  - destruct (Qle_bool x y) eqn:E; [|reflexivity].
    apply Qle_bool_iff in E. apply Qlt_not_le in H. contradiction.
Qed.

Lemma Qle_bool_cases x y :
  (Qle_bool x y = true /\ (x <= y)%Q) \/ (Qle_bool x y = false /\ (y < x)%Q).
Proof.
  destruct (Qle_bool x y) eqn:E.
  - left. split; [reflexivity|]. apply Qle_bool_iff; exact E.
  - right. split; [reflexivity|]. apply Qle_bool_false; exact E.
Qed.

Ltac absurd_order :=
  match goal with
  | P : (?a <= ?b)%Q, L : (?b < ?a)%Q |- _ =>
      exact (False_ind _ (Qlt_not_le _ _ L P))
  end.

Ltac settle_stage :=
  repeat split; intros;
  repeat match goal with G : _ /\ _ |- _ => destruct G end;
  solve [discriminate | assumption | absurd_order].

(** The stages tried in each of the four ways out. *)
Lemma shortenPhrase_stages phrase maxWidth size st :
  Qle_bool (widthAt measure st size (convertCzechCharacters phrase))
    (maxWidth * 0.9) = false ->
  let w := convertCzechCharacters phrase in
  let run := shortenPhrase measure phrase maxWidth size true st in
  let fit t := Qle_bool (widthAt measure st size t) maxWidth in
  let s1 := applyVowelRemoval w in
  let s2 := applyMorphemeShortening w in
  let s3 := applyVowelRemoval (applyMorphemeShortening w) in
  let s4 :=
    aggressiveShortening s3 maxWidth (widthAt measure st size (lit "M")) in
  (fit s1 = true ->
     fst run = s1 /\ stagesTried st (snd run) = [VowelRemoval])
  /\ (fit s1 = false -> fit s2 = true ->
        fst run = s2
        /\ stagesTried st (snd run) = [VowelRemoval; MorphemeSubstitution])
  /\ (fit s1 = false -> fit s2 = false -> fit s3 = true ->
        fst run = s3
        /\ stagesTried st (snd run)
           = [VowelRemoval; MorphemeSubstitution; VowelRemovalAfterMorpheme])
  /\ (fit s1 = false -> fit s2 = false -> fit s3 = false ->
        fst run = s4
        /\ stagesTried st (snd run)
           = [VowelRemoval; MorphemeSubstitution; VowelRemovalAfterMorpheme;
              AggressiveTruncation]).
Proof.
  intros H w run fit s1 s2 s3 s4.
  destruct (shortenPhrase_above_threshold phrase maxWidth size st H)
    as (A1 & A2 & A3 & A4).
  fold w in A1, A2, A3, A4. fold run in A1, A2, A3, A4.
  repeat split; intros.
  - apply A1; assumption.
  - destruct A1 as [_ E]; [assumption|].
    rewrite (stagesTried_app st (snd run) _ E). reflexivity.
  - apply A2; assumption.
  - destruct A2 as [_ E]; [assumption..|].
    rewrite (stagesTried_app st (snd run) _ E). reflexivity.
  - apply A3; assumption.
  - destruct A3 as [_ E]; [assumption..|].
    rewrite (stagesTried_app st (snd run) _ E). reflexivity.
  - apply A4; assumption.
  - destruct A4 as [_ E]; [assumption..|].
    rewrite (stagesTried_app st (snd run) _ E). reflexivity.
Qed.

(** C6.  With [isSong = false] the result is exactly the transliterated
    phrase, whatever the width budget and the font size: no stage is tried
    and nothing is logged. *)
Theorem shortenPhrase_break_text_unchanged (phrase : jsstring)
    (maxWidth size : Q) (st : State) :
  let run := shortenPhrase measure phrase maxWidth size false st in
  fst run = convertCzechCharacters phrase
  /\ stagesTried st (snd run) = []
  /\ snd run = snd (setFontSize size st).
Proof.
  cbv zeta. unfold shortenPhrase, bind, ret.
  cbn [negb]. unfold setFontSize at 1 2. cbn [fst snd].
  repeat split. apply stagesTried_same. reflexivity.
Qed.

(** C3.  The trigger threshold is 90% of the budget, inclusive: a song
    phrase whose transliterated width is at most 0.9 x maxWidth, or exactly
    that, comes back unchanged with no stage tried.  Above the threshold
    stage 1 is always tried, and each of stages 1 to 3 is the last one
    tried, its output being the result, exactly when the stages before it
    were too wide and its own output measures at most maxWidth, the full
    budget. *)
Theorem shortenPhrase_thresholds (phrase : jsstring) (maxWidth size : Q)
    (st : State) :
  let w := convertCzechCharacters phrase in
  let run := shortenPhrase measure phrase maxWidth size true st in
  let width := widthAt measure st size in
  let tried := stagesTried st (snd run) in
  let s1 := applyVowelRemoval w in
  let s2 := applyMorphemeShortening w in
  let s3 := applyVowelRemoval (applyMorphemeShortening w) in
  ((width w <= maxWidth * 0.9)%Q -> fst run = w /\ tried = [])
  /\ ((width w == maxWidth * 0.9)%Q -> fst run = w /\ tried = [])
  /\ ((maxWidth * 0.9 < width w)%Q ->
        hd_error tried = Some VowelRemoval
        /\ (tried = [VowelRemoval] /\ fst run = s1 <->
              (width s1 <= maxWidth)%Q)
        /\ (tried = [VowelRemoval; MorphemeSubstitution] /\ fst run = s2 <->
              (maxWidth < width s1)%Q /\ (width s2 <= maxWidth)%Q)
        /\ (tried
              = [VowelRemoval; MorphemeSubstitution;
                 VowelRemovalAfterMorpheme] /\ fst run = s3 <->
              (maxWidth < width s1)%Q /\ (maxWidth < width s2)%Q
              /\ (width s3 <= maxWidth)%Q)).
Proof.
  intros w run width tried s1 s2 s3.
  assert (Below : (width w <= maxWidth * 0.9)%Q -> fst run = w /\ tried = []).
  { intros H. apply Qle_bool_iff in H.
    destruct (shortenPhrase_below_threshold phrase maxWidth size st H) as [E1 E2].
    split; [exact E1|]. apply stagesTried_same. exact E2. }
  split; [exact Below|]. split.
  { intros H. apply Below. rewrite H. apply Qle_refl. }
  intros H. apply Qle_bool_false in H.
  destruct (shortenPhrase_stages phrase maxWidth size st H) as (A1 & A2 & A3 & A4).
  fold w in A1, A2, A3, A4. fold run in A1, A2, A3, A4.
  fold s1 in A1, A2, A3, A4. fold s2 in A2, A3, A4. fold s3 in A3, A4.
  fold tried in A1, A2, A3, A4.
  change (widthAt measure st size) with width in A1, A2, A3, A4.
  destruct (Qle_bool_cases (width s1) maxWidth) as [[B1 P1]|[B1 P1]].
  { destruct (A1 B1) as [R ->]. settle_stage. }
  destruct (Qle_bool_cases (width s2) maxWidth) as [[B2 P2]|[B2 P2]].
  { destruct (A2 B1 B2) as [R ->]. settle_stage. }
  destruct (Qle_bool_cases (width s3) maxWidth) as [[B3 P3]|[B3 P3]].
  { destruct (A3 B1 B2 B3) as [R ->]. settle_stage. }
  destruct (A4 B1 B2 B3) as [R ->]. settle_stage.
Qed.

(** C1, as amended.  Above the trigger threshold the stages are tried in
    the order vowel removal, morpheme substitution, morpheme substitution
    followed by vowel removal, aggressive truncation, and the result is the
    output of the first of the first three that fits.  The first two work
    on the transliterated phrase and the third composes them on it; when
    none fits, the result is the aggressive truncation of the third
    stage's output, returned without being measured. *)
Theorem shortenPhrase_stage_order (phrase : jsstring) (maxWidth size : Q)
    (st : State) :
  let w := convertCzechCharacters phrase in
  let run := shortenPhrase measure phrase maxWidth size true st in
  let width := widthAt measure st size in
  let tried := stagesTried st (snd run) in
  let s1 := applyVowelRemoval w in
  let s2 := applyMorphemeShortening w in
  let s3 := applyVowelRemoval (applyMorphemeShortening w) in
  let s4 := aggressiveShortening s3 maxWidth (width (lit "M")) in
  (maxWidth * 0.9 < width w)%Q ->
  ((width s1 <= maxWidth)%Q ->
     fst run = s1 /\ tried = [VowelRemoval])
  /\ ((maxWidth < width s1)%Q -> (width s2 <= maxWidth)%Q ->
        fst run = s2 /\ tried = [VowelRemoval; MorphemeSubstitution])
  /\ ((maxWidth < width s1)%Q -> (maxWidth < width s2)%Q ->
      (width s3 <= maxWidth)%Q ->
        fst run = s3
        /\ tried
           = [VowelRemoval; MorphemeSubstitution; VowelRemovalAfterMorpheme])
  /\ ((maxWidth < width s1)%Q -> (maxWidth < width s2)%Q ->
      (maxWidth < width s3)%Q ->
        fst run = s4
        /\ tried
           = [VowelRemoval; MorphemeSubstitution; VowelRemovalAfterMorpheme;
              AggressiveTruncation]).
Proof.
  intros w run width tried s1 s2 s3 s4 H.
  apply Qle_bool_false in H.
  destruct (shortenPhrase_stages phrase maxWidth size st H)
    as (A1 & A2 & A3 & A4).
  repeat split; intros;
    repeat match goal with
           | G : (_ <= _)%Q |- _ => apply Qle_bool_iff in G
           | G : (_ < _)%Q |- _ => apply Qle_bool_false in G
           end.
  - apply A1; assumption.
  - apply A1; assumption.
  - apply A2; assumption.
  - apply A2; assumption.
  - apply A3; assumption.
  - apply A3; assumption.
  - apply A4; assumption.
  - apply A4; assumption.
Qed.

End Shortener.

(** *** The shortener on concrete titles *)

(** C1, counterexample.  At 60 points on the full content width, with the
    fixed-pitch oracle, none of the first three stages fits the title
    below; the text returned is the truncation of the third stage's output
    and differs from the truncation of the transliterated phrase. *)
Lemma shortenPhrase_truncates_stage3_output :
  let phrase := lit "Remember Something Wonderful Tonight" in
  let w := convertCzechCharacters phrase in
  let width := widthAt fixedPitch freshState 60 in
  let run := shortenPhrase fixedPitch phrase contentWidth 60 true freshState in
  ((contentWidth * 0.9 < width w)%Q
   /\ (contentWidth < width (applyVowelRemoval w))%Q
   /\ (contentWidth < width (applyMorphemeShortening w))%Q
   /\ (contentWidth
       < width (applyVowelRemoval (applyMorphemeShortening w)))%Q)
  /\ fst run = lit "rmbr smtg Wndl tngt"
  /\ aggressiveShortening w contentWidth (width (lit "M"))
     = lit "Remr Somg Wonl Tont"
  /\ fst run <> aggressiveShortening w contentWidth (width (lit "M")).
Proof.
  cbv zeta. repeat split; try (vm_compute; reflexivity).
  vm_compute. discriminate.
Qed.

Lemma shortenPhrase_stage_order_witness :
  let phrase := lit "Something Wonderful Tonight" in
  let run := shortenPhrase fixedPitch phrase contentWidth 60 true freshState in
  fst run = lit "smthg Wndrfl tnght"
  /\ stagesTried freshState (snd run)
     = [VowelRemoval; MorphemeSubstitution; VowelRemovalAfterMorpheme].
Proof.
  apply (shortenPhrase_stage_order fixedPitch
           (lit "Something Wonderful Tonight") contentWidth 60 freshState).
  all: vm_compute.
  1-3: reflexivity.
  intros E; discriminate E.
Defined.

Lemma shortenPhrase_thresholds_witness :
  let run :=
    shortenPhrase fixedPitch (lit "Song 1") contentWidth 60 true freshState in
  fst run = lit "Song 1" /\ stagesTried freshState (snd run) = [].
Proof.
  apply (proj1 (shortenPhrase_thresholds fixedPitch (lit "Song 1")
                  contentWidth 60 freshState)).
  vm_compute. intros E; discriminate E.
Defined.

(** ** Vowel removal *)

Section VowelRemoval.

Lemma len_cons c (s : jsstring) : len (c :: s) = len s + 1.
Proof. unfold len. cbn [List.length]. lia. Qed.

Lemma len_app (s t : jsstring) : len (s ++ t) = len s + len t.
Proof. unfold len. rewrite length_app. lia. Qed.

Lemma len_nonneg (s : jsstring) : 0 <= len s.
Proof. unfold len. lia. Qed.

Lemma index_head c (s : jsstring) : index (c :: s) 0 = [c].
Proof. reflexivity. Qed.

Lemma index_last (s : jsstring) z : index (s ++ [z]) (len (s ++ [z]) - 1) = [z].
Proof.
  unfold index. rewrite len_app.
  change (len [z]) with 1. pose proof (len_nonneg s) as Hs.
  destruct (Z.ltb_spec (len s + 1 - 1) 0) as [H|_]; [lia|].
  replace (Z.to_nat (len s + 1 - 1)) with (List.length s)
    by (unfold len; lia).
  rewrite nth_error_app2 by lia. rewrite Nat.sub_diag. reflexivity.
Qed.

(** The interior of a word of at least two units. *)
Lemma substring_interior a (mid : jsstring) z :
  substring (a :: mid ++ [z]) 1 (len (a :: mid ++ [z]) - 1) = mid.
Proof.
  unfold substring. rewrite len_cons, len_app. change (len [z]) with 1.
  pose proof (len_nonneg mid) as Hm.
  replace (Z.to_nat (Z.max 0 (Z.min 1 (len mid + 1 + 1)))) with 1%nat by lia.
  replace (Z.to_nat
             (Z.max 0 (Z.min (len mid + 1 + 1 - 1) (len mid + 1 + 1))))
    with (S (List.length mid)) by (unfold len in *; lia).
  rewrite Nat.min_l, Nat.max_r by lia.
  cbn [skipn Nat.sub]. rewrite Nat.sub_0_r.
  rewrite firstn_app, firstn_all, Nat.sub_diag. cbn. apply app_nil_r.
Qed.

Lemma substring_prefix (s : jsstring) n :
  0 <= n -> substring s 0 n = firstn (Z.to_nat n) s.
Proof.
  intros Hn. unfold substring. pose proof (len_nonneg s) as Hs.
  replace (Z.to_nat (Z.max 0 (Z.min 0 (len s)))) with 0%nat by lia.
  rewrite Nat.min_l, Nat.max_r by lia. cbn [skipn]. rewrite Nat.sub_0_r.
  destruct (Z.le_ge_cases n (len s)) as [H|H].
  - replace (Z.max 0 (Z.min n (len s))) with n by lia. reflexivity.
  - replace (Z.max 0 (Z.min n (len s))) with (len s) by lia.
    unfold len in *. rewrite Nat2Z.id.
    rewrite !firstn_all2; [reflexivity|lia|lia].
Qed.

(** Replacing every match of a one-class pattern by the empty string is
    filtering. *)
Lemma replaceFrom_class_empty p prev s :
  replaceFrom false [Class p] [] O prev s
  = List.filter (fun c => negb (p c)) s.
Proof.
  revert prev; induction s as [|c s IH]; intros prev; [reflexivity|].
  cbn [replaceFrom matchHere List.filter].
  destruct (p c); cbn [option_map negb app]; rewrite IH; reflexivity.
Qed.

Lemma removeVowelsFromWord_short word :
  len word <= 3 -> removeVowelsFromWord word = word.
Proof.
  intros H. unfold removeVowelsFromWord.
  destruct (Z.leb_spec (len word) 3); [reflexivity|lia].
Qed.

Lemma removeVowelsFromWord_long a mid z :
  2 <= len mid ->
  removeVowelsFromWord (a :: mid ++ [z]) = a :: interiorKept mid ++ [z].
Proof.
  intros H. unfold removeVowelsFromWord.
  assert (L : len (a :: mid ++ [z]) = len mid + 2).
  { rewrite len_cons, len_app. change (len [z]) with 1. lia. }
  destruct (Z.leb_spec (len (a :: mid ++ [z])) 3) as [G|_]; [lia|].
  rewrite substring_interior, index_head.
  change (a :: mid ++ [z]) with ((a :: mid) ++ [z]) at 1.
  rewrite index_last.
  unfold replaceAll. rewrite replaceFrom_class_empty.
  unfold interiorKept.
  destruct (List.filter (fun c => negb (isVowel c)) mid) as [|c stripped].
  - change (len [] =? 0) with true. cbn [andb].
    destruct (Z.ltb_spec 1 (len mid)) as [_|G]; [|lia].
    destruct mid as [|m mid]; [cbn in H; lia|]. reflexivity.
  - replace (len (c :: stripped) =? 0) with false; [reflexivity|].
    symmetry. apply Z.eqb_neq. rewrite len_cons.
    pose proof (len_nonneg stripped). lia.
Qed.

(** The callback does to each word what the specification says. *)
Lemma removeVowelsFromWord_spec word :
  removeVowelsFromWord word = shortenWord word.
Proof.
  destruct word as [|a rest].
  - reflexivity.
  - unfold shortenWord.
    destruct (Z.ltb_spec 3 (len (a :: rest))) as [H|H].
    + assert (Hrest : rest <> []).
      { intros ->. cbn in H. lia. }
      rewrite (app_removelast_last a Hrest) at 1.
      apply removeVowelsFromWord_long.
      rewrite (app_removelast_last a Hrest) in H.
      rewrite len_cons, len_app in H. change (len [last rest a]) with 1 in H.
      lia.
    + apply removeVowelsFromWord_short. exact H.
Qed.

Lemma split_from_nonempty sep cur s : split_from sep cur s <> [].
Proof.
  revert cur; induction s as [|c s IH]; intros cur; cbn; [discriminate|].
  destruct (N.eqb c sep); [discriminate|apply IH].
Qed.

Lemma join_cons sep w ws :
  ws <> [] -> join sep (w :: ws) = w ++ sep ++ join sep ws.
Proof. destruct ws; [congruence|reflexivity]. Qed.

(** Joining the pieces with the separator gives the string back. *)
Lemma join_split_from sep cur s :
  join [sep] (split_from sep cur s) = cur ++ s.
Proof.
  revert cur; induction s as [|c s IH]; intros cur; cbn [split_from].
  - cbn. symmetry. apply app_nil_r.
  - destruct (N.eqb_spec c sep) as [->|_].
    + rewrite join_cons by apply split_from_nonempty.
      rewrite IH. reflexivity.
    + rewrite IH, <- app_assoc. reflexivity.
Qed.

(** No piece holds the separator. *)
Lemma split_from_no_sep sep cur s :
  ~ In sep cur -> Forall (fun w => ~ In sep w) (split_from sep cur s).
Proof.
  revert cur; induction s as [|c s IH]; intros cur Hcur; cbn [split_from].
  - constructor; [exact Hcur|constructor].
  - destruct (N.eqb_spec c sep) as [->|Hc].
    + constructor; [exact Hcur|]. apply IH. intros [].
    + apply IH. rewrite in_app_iff. cbn. intuition congruence.
Qed.

(** C4, as amended.  The words of the vowel-removal stage are the pieces
    between single space characters (U+0020): joined with a space they give
    the phrase back, and none holds a space.  Each is mapped as the
    specification says, words of at most three units unchanged, and the
    results are joined with single spaces. *)
Theorem applyVowelRemoval_space_words (phrase : jsstring) :
  let words := split space phrase in
  join [space] words = phrase
  /\ Forall (fun w => ~ In space w) words
  /\ applyVowelRemoval phrase = join [space] (List.map shortenWord words).
Proof.
  cbv zeta. split; [|split].
  - apply (join_split_from space [] phrase).
  - apply split_from_no_sep. intros [].
  - unfold applyVowelRemoval. f_equal.
    apply map_ext. apply removeVowelsFromWord_spec.
Qed.

(** C4, counterexample.  A tab is white space but does not delimit words
    for this stage: the phrase below is treated as one word, whereas its
    two white-space-delimited words would give another text. *)
Lemma applyVowelRemoval_tab_is_no_delimiter :
  let phrase := lit "aaaa" ++ [9%N] ++ lit "bbbb" in
  applyVowelRemoval phrase = lit "a" ++ [9%N] ++ lit "bbbb"
  /\ vowelRemovalOfWhiteSpaceWords phrase = lit "aaa bbbb"
  /\ applyVowelRemoval phrase <> vowelRemovalOfWhiteSpaceWords phrase.
Proof.
  cbv zeta. repeat split; try (vm_compute; reflexivity).
  vm_compute. discriminate.
Qed.

End VowelRemoval.

(** ** Aggressive truncation *)

Section AggressiveTruncation.

Variable measure : oracle.

Lemma index_nonempty s i : index s i <> [].
Proof.
  unfold index. destruct (i <? 0); [discriminate|].
  destruct (nth_error s (Z.to_nat i)); discriminate.
Qed.

Lemma app_nonempty_l {A} (l l' : list A) : l <> [] -> l ++ l' <> [].
Proof. destruct l; [congruence|discriminate]. Qed.

(** Truncation never empties a word and keeps its first unit. *)
Lemma preserveWordShape_nonempty word n :
  word <> [] ->
  preserveWordShape word n <> []
  /\ hd_error (preserveWordShape word n) = hd_error word.
Proof.
  intros Hw. unfold preserveWordShape.
  destruct (len word <=? n); [split; [exact Hw|reflexivity]|].
  destruct word as [|c word]; [congruence|]. rewrite index_head.
  destruct (3 <=? n); [split; [discriminate|reflexivity]|].
  destruct (2 <=? n); split; solve [discriminate | reflexivity].
Qed.

(** With three characters or more to spend, a longer word keeps its two
    ends around the head of its interior. *)
Lemma preserveWordShape_shape a mid z n :
  3 <= n -> n < len (a :: mid ++ [z]) ->
  preserveWordShape (a :: mid ++ [z]) n
  = a :: firstn (Z.to_nat (n - 2)) mid ++ [z].
Proof.
  intros H3 Hn. unfold preserveWordShape.
  destruct (Z.leb_spec (len (a :: mid ++ [z])) n) as [G|_]; [lia|].
  destruct (Z.leb_spec 3 n) as [_|G]; [|lia].
  rewrite substring_interior, index_head, substring_prefix by lia.
  change (a :: mid ++ [z]) with ((a :: mid) ++ [z]) at 1.
  rewrite index_last. reflexivity.
Qed.

(** Once something is written, the loop never returns the empty string. *)
Lemma aggressiveLoop_keeps_result total count i words result used :
  result <> [] -> aggressiveLoop total count i words result used <> [].
Proof.
  revert i result used; induction words as [|word rest IH];
    intros i result used Hr; cbn [aggressiveLoop]; [exact Hr|].
  destruct (total - used <=? 0); [exact Hr|].
  apply IH. apply app_nonempty_l.
  destruct result; [congruence|discriminate].
Qed.

(** A first word that is not empty is written when the budget allows one
    character. *)
Lemma aggressiveLoop_first_word total count i word rest :
  word <> [] -> 1 <= total ->
  aggressiveLoop total count i (word :: rest) [] 0 <> [].
Proof.
  intros Hw Ht. cbn [aggressiveLoop].
  destruct (Z.leb_spec (total - 0) 0) as [G|_]; [lia|].
  apply aggressiveLoop_keeps_result. cbn [app].
  destruct (len word <=? _); [exact Hw|].
  apply preserveWordShape_nonempty. exact Hw.
Qed.

(** An empty first word, which white space at the head of the phrase
    gives, writes nothing and uses no budget. *)
Lemma aggressiveLoop_empty_word total count i rest :
  1 <= total ->
  aggressiveLoop total count i ([] :: rest) [] 0
  = aggressiveLoop total count (i + 1) rest [] 0.
Proof.
  intros Ht. cbn [aggressiveLoop].
  destruct (Z.leb_spec (total - 0) 0) as [G|_]; [lia|].
  change (len []) with 0.
  destruct (Z.leb_spec 0 (Z.max 2 (Z.min 0 ((total - 0) / (count - i)))))
    as [_|G]; [reflexivity|lia].
Qed.

Lemma splitWs_from_pending cur s :
  cur <> [] -> firstNonEmpty (splitWs_from false cur s).
Proof.
  revert cur; induction s as [|c s IH]; intros cur Hc; cbn [splitWs_from].
  - exact Hc.
  - destruct (isWhiteSpace c); [exact Hc|].
    apply IH. destruct cur; discriminate.
Qed.

Lemma splitWs_from_run s :
  hasVisibleUnit s -> firstNonEmpty (splitWs_from true [] s).
Proof.
  induction s as [|c s IH]; intros (x & Hin & Hx).
  - destruct Hin.
  - cbn [splitWs_from]. destruct (isWhiteSpace c) eqn:E.
    + apply IH. exists x. split; [|exact Hx].
      destruct Hin as [->|Hin]; [congruence|exact Hin].
    + apply splitWs_from_pending. discriminate.
Qed.

(** A phrase with a visible unit splits into a first word that is not
    empty, or into an empty word followed by one that is not. *)
Lemma splitWs_visible s :
  hasVisibleUnit s ->
  firstNonEmpty (splitWs s)
  \/ exists rest, splitWs s = [] :: rest /\ firstNonEmpty rest.
Proof.
  intros H. destruct s as [|c s].
  - destruct H as (x & [] & _).
  - unfold splitWs. cbn [splitWs_from]. destruct (isWhiteSpace c) eqn:E.
    + right. eexists. split; [reflexivity|].
      apply splitWs_from_run. destruct H as (x & Hin & Hx).
      exists x. split; [|exact Hx].
      destruct Hin as [->|Hin]; [congruence|exact Hin].
    + left. apply splitWs_from_pending. discriminate.
Qed.

Lemma aggressiveShortening_nonempty phrase maxWidth avgCharWidth :
  hasVisibleUnit phrase ->
  1 <= Qfloor (maxWidth / avgCharWidth) ->
  aggressiveShortening phrase maxWidth avgCharWidth <> [].
Proof.
  intros Hv Ht. unfold aggressiveShortening.
  destruct (splitWs_visible phrase Hv) as [H|(rest & E & H)].
  - destruct (splitWs phrase) as [|word rest]; [destruct H|].
    apply aggressiveLoop_first_word; assumption.
  - rewrite E. rewrite aggressiveLoop_empty_word by exact Ht.
    destruct rest as [|word rest]; [destruct H|].
    apply aggressiveLoop_first_word; assumption.
Qed.

(** C5, as amended.  For every phrase that holds a unit other than white
    space, and every budget of at least one character, the aggressive
    stage returns a string that is not empty; truncating a word that is
    not empty never empties it and keeps its first unit. *)
Theorem applyAggressiveShortening_nonempty (phrase : jsstring)
    (maxWidth size : Q) (st : State) :
  hasVisibleUnit phrase ->
  1 <= Qfloor (maxWidth / widthAt measure st size (lit "M")) ->
  fst (applyAggressiveShortening measure phrase maxWidth size st) <> []
  /\ (forall word n, word <> [] ->
        preserveWordShape word n <> []
        /\ hd_error (preserveWordShape word n) = hd_error word).
Proof.
  intros Hv Ht. split; [|intros; apply preserveWordShape_nonempty; assumption].
  unfold applyAggressiveShortening, bind, ret, setFontSize, getTextWidth.
  cbn [fst snd doc fontStyle fontSize].
  apply aggressiveShortening_nonempty; assumption.
Qed.

End AggressiveTruncation.

(** C5, counterexample.  A phrase made of one space is not empty and the
    budget at 60 points on the content width is 18 characters, yet the
    stage returns the empty string. *)
Lemma applyAggressiveShortening_blank_phrase :
  lit " " <> []
  /\ Qfloor (contentWidth / widthAt fixedPitch freshState 60 (lit "M")) = 18
  /\ fst (applyAggressiveShortening fixedPitch (lit " ") contentWidth 60
            freshState) = [].
Proof.
  repeat split; try (vm_compute; reflexivity). discriminate.
Qed.

Lemma applyAggressiveShortening_nonempty_witness :
  fst (applyAggressiveShortening fixedPitch (lit "rmbr smthg Wndrfl tnght")
         contentWidth 60 freshState) <> [].
Proof.
  refine (proj1 (applyAggressiveShortening_nonempty fixedPitch
                   (lit "rmbr smthg Wndrfl tnght") contentWidth 60 freshState
                   _ _)).
  - exists 114%N. split; [left; reflexivity|reflexivity].
  - vm_compute. intros E; discriminate E.
Defined.

(** ** The font-size search *)

Section FontSizeSearch.

Variable setlist : list Item.

(** The loop visits the candidates from 60 down to 24. *)
Lemma sizeLoop_candidates availableHeight songSize midshowSize :
  sizeLoop 19 setlist availableHeight 60 songSize midshowSize
  = searchCandidates (fitsBudget setlist availableHeight) candidates songSize
      midshowSize.
Proof. reflexivity. Qed.

(** Nineteen iterations are all the loop can make: more fuel changes
    nothing. *)
Lemma sizeLoop_fuel extra availableHeight songSize midshowSize :
  sizeLoop (19 + extra) setlist availableHeight 60 songSize midshowSize
  = sizeLoop 19 setlist availableHeight 60 songSize midshowSize.
Proof.
  cbn [Nat.add sizeLoop Z.leb Z.compare Pos.compare Pos.compare_cont Z.sub
       Z.add Z.opp Z.pos_sub Pos.pred_double Z.succ_double Z.pred_double
       Z.double].
  repeat match goal with
         | |- context [if ?b then _ else _] => destruct b; [reflexivity|]
         end.
  destruct extra; reflexivity.
Qed.

(** The running total of the loop body is the specification's sum. *)
Lemma estimateFrom_heights items index candidate acc :
  0 <= index ->
  (estimateFrom items index candidate (Qmax 16 (candidate * 0.6)) acc
   == acc + heights candidate (index =? 0) items)%Q.
Proof.
  revert index acc; induction items as [|item rest IH]; intros index acc Hi;
    cbn [estimateFrom heights].
  - ring.
  - rewrite IH by lia.
    replace (index + 1 =? 0) with false by (symmetry; apply Z.eqb_neq; lia).
    unfold entryHeight, PT_TO_MM.
    destruct (isSongItem item); cbn [negb andb].
    + ring.
    + destruct (Z.ltb_spec 0 index) as [H|H];
        destruct (Z.eqb_spec index 0) as [E|E]; try lia; ring.
Qed.

Lemma fitsBudget_iff size :
  fitsBudget setlist usableHeight size = true
  <-> (stackedHeight setlist (inject_Z size) <= usableHeight)%Q.
Proof.
  unfold fitsBudget, stackedHeight. rewrite Qle_bool_iff.
  rewrite estimateFrom_heights by lia. cbn [Z.eqb].
  rewrite Qplus_0_l. reflexivity.
Qed.

Lemma searchCandidates_found fit sizes songSize midshowSize :
  (exists c, In c sizes /\ fit c = true) ->
  exists pre best post,
    sizes = pre ++ best :: post
    /\ fit best = true
    /\ (forall x, In x pre -> fit x = false)
    /\ searchCandidates fit sizes songSize midshowSize
       = (inject_Z best, Qmax 16 (inject_Z best * 0.6)).
Proof.
  revert songSize midshowSize;
    induction sizes as [|size rest IH]; intros songSize midshowSize
      (c & Hin & Hc).
  - destruct Hin.
  - cbn [searchCandidates]. destruct (fit size) eqn:E.
    + exists [], size, rest. repeat split; auto. intros x [].
    + destruct Hin as [->|Hin]; [congruence|].
      destruct (IH (inject_Z size) (Qmax 16 (inject_Z size * 0.6)))
        as (pre & best & post & -> & Hb & Hpre & Hrun).
      { exists c. split; assumption. }
      exists (size :: pre), best, post. repeat split; auto.
      intros x [<-|Hx]; [exact E|apply Hpre; exact Hx].
Qed.

Lemma searchCandidates_none fit sizes songSize midshowSize :
  (forall c, In c sizes -> fit c = false) ->
  sizes <> [] ->
  searchCandidates fit sizes songSize midshowSize
  = (inject_Z (last sizes 0), Qmax 16 (inject_Z (last sizes 0) * 0.6)).
Proof.
  revert songSize midshowSize;
    induction sizes as [|size rest IH]; intros songSize midshowSize Hnone Hne;
    [congruence|].
  cbn [searchCandidates]. rewrite (Hnone size) by (left; reflexivity).
  destruct rest as [|size' rest]; [reflexivity|].
  rewrite IH; [reflexivity| |discriminate].
  intros c Hc. apply Hnone. right; exact Hc.
Qed.

(** In a list in decreasing order, what is larger than an element stands
    before it. *)
Lemma larger_stand_before pre best post c :
  StronglySorted Z.gt (pre ++ best :: post) ->
  In c (pre ++ best :: post) -> best < c -> In c pre.
Proof.
  induction pre as [|x pre IH]; cbn [app]; intros Hs Hin Hlt.
  - apply StronglySorted_inv in Hs. destruct Hs as [_ Hall].
    destruct Hin as [->|Hin]; [lia|].
    rewrite Forall_forall in Hall. specialize (Hall c Hin). lia.
  - apply StronglySorted_inv in Hs. destruct Hs as [Hs _].
    destruct Hin as [->|Hin]; [left; reflexivity|].
    right. apply IH; assumption.
Qed.

Lemma candidates_decreasing : StronglySorted Z.gt candidates.
Proof.
  unfold candidates.
  repeat (constructor; [|repeat (constructor; [reflexivity|]); constructor]).
  constructor.
Qed.

Lemma candidates_at_least_24 c : In c candidates -> 24 <= c.
Proof.
  unfold candidates. cbn [In]. intuition lia.
Qed.

(** C2, as amended.  For a setlist of at most nine songs: when some
    candidate of 60, 58, ..., 24 keeps the estimated stacked height within
    the usable height, the song size returned is the largest such
    candidate, no larger candidate fits, and the break size is
    [max(16, 0.6 x song size)]; when no candidate fits, the sizes returned
    are the smallest ones, 24 and 16.  In both cases the song size is at
    least 24 and the break size at least 14. *)
Theorem calculateFontSizes_single_page :
  songCountOf setlist <= 9 ->
  let sizes := calculateFontSizes setlist in
  let fits c := (stackedHeight setlist (inject_Z c) <= usableHeight)%Q in
  ((exists c, In c candidates /\ fits c) ->
     exists best,
       In best candidates /\ fits best
       /\ (forall c, In c candidates -> best < c -> ~ fits c)
       /\ (songFontSize sizes == inject_Z best)%Q
       /\ (midshowFontSize sizes == Qmax 16 (inject_Z best * 0.6))%Q)
  /\ ((forall c, In c candidates -> ~ fits c) ->
        (songFontSize sizes == 24)%Q /\ (midshowFontSize sizes == 16)%Q)
  /\ (24 <= songFontSize sizes)%Q /\ (14 <= midshowFontSize sizes)%Q.
Proof.
  intros Hcount sizes fits.
  assert (Esizes :
            sizes
            = let (songSize, midshowSize) :=
                searchCandidates (fitsBudget setlist usableHeight) candidates
                  32 20 in
              {| songFontSize := Qmax 24 songSize;
                 midshowFontSize := Qmax 14 midshowSize |}).
  { unfold sizes, calculateFontSizes.
    destruct (Z.leb_spec (songCountOf setlist) 9) as [_|H]; [|lia].
    unfold calculateSinglePageSizes. rewrite sizeLoop_candidates.
    reflexivity. }
  assert (Floor : forall x, (14 <= Qmax 14 (Qmax 16 x))%Q)
    by (intros; apply Q.le_max_l).
  assert (Break : forall x, (Qmax 14 (Qmax 16 x) == Qmax 16 x)%Q).
  { intros x. apply Q.max_r.
    apply Qle_trans with 16%Q; [discriminate|apply Q.le_max_l]. }
  split; [|split; [|split]].
  - intros (c & Hin & Hc).
    destruct (searchCandidates_found (fitsBudget setlist usableHeight)
                candidates 32 20) as (pre & best & post & E & Hb & Hpre & Hrun).
    { exists c. split; [exact Hin|]. apply fitsBudget_iff. exact Hc. }
    assert (Hbest : In best candidates).
    { rewrite E. apply in_or_app. right; left; reflexivity. }
    exists best. split; [exact Hbest|]. split; [apply fitsBudget_iff, Hb|].
    split.
    + intros c' Hc' Hlt Hfit.
      assert (Hp : In c' pre).
      { apply (larger_stand_before pre best post c'); [| |exact Hlt].
        - rewrite <- E. apply candidates_decreasing.
        - rewrite <- E. exact Hc'. }
      apply fitsBudget_iff in Hfit. rewrite (Hpre c' Hp) in Hfit.
      discriminate.
    + rewrite Esizes, Hrun. cbn [songFontSize midshowFontSize]. split.
      * apply Q.max_r. pose proof (candidates_at_least_24 best Hbest) as H24.
        unfold Qle; cbn. lia.
      * apply Break.
  - intros Hnone. rewrite Esizes.
    rewrite searchCandidates_none; [|intros c Hc|discriminate].
    + cbn [songFontSize midshowFontSize]. split; reflexivity.
    + destruct (fitsBudget setlist usableHeight c) eqn:E; [|reflexivity].
      apply fitsBudget_iff in E. destruct (Hnone c Hc E).
  - rewrite Esizes.
    destruct (searchCandidates _ _ _ _) as [songSize midshowSize].
    apply Q.le_max_l.
  - rewrite Esizes.
    destruct (searchCandidates _ _ _ _) as [songSize midshowSize].
    apply Q.le_max_l.
Qed.

End FontSizeSearch.

(** *** The search on concrete setlists *)

(** C2, counterexample.  Nine songs followed by thirty breaks: too tall at
    every candidate, the estimated height at 24 exceeds the usable height
    of 261 mm, and the song size returned is 24 all the same. *)
Lemma calculateFontSizes_nothing_fits :
  let setlist :=
    List.repeat (songEntry (lit "Song")) 9
      ++ List.repeat (breakEntry (lit "Break")) 30 in
  songCountOf setlist = 9
  /\ (songFontSize (calculateFontSizes setlist) == 24)%Q
  /\ (usableHeight < stackedHeight setlist 24)%Q
  /\ forallb
       (fun c =>
          negb (Qle_bool (stackedHeight setlist (inject_Z c)) usableHeight))
       candidates = true.
Proof.
  cbv zeta. repeat split; vm_compute; reflexivity.
Qed.

Lemma calculateFontSizes_single_page_witness :
  let setlist := List.repeat (songEntry (lit "Song")) 9 in
  exists best,
    In best candidates
    /\ (stackedHeight setlist (inject_Z best) <= usableHeight)%Q
    /\ (forall c, In c candidates -> best < c ->
          ~ (stackedHeight setlist (inject_Z c) <= usableHeight)%Q)
    /\ (songFontSize (calculateFontSizes setlist) == inject_Z best)%Q
    /\ (midshowFontSize (calculateFontSizes setlist)
        == Qmax 16 (inject_Z best * 0.6))%Q.
Proof.
  refine (proj1 (calculateFontSizes_single_page
                   (List.repeat (songEntry (lit "Song")) 9) _) _).
  - vm_compute. intros E; discriminate E.
  - exists 60. split; [left; reflexivity|].
    vm_compute. intros E; discriminate E.
Defined.

(** ** The font size of break labels *)

Section MidshowFontSize.

Variable measure : oracle.

(** With fuel for every point above the floor, the loop stops because its
    condition fails: the label fits or the size is at most the floor. *)
Lemma midshowLoop_exit fuel text maxWidth floor size width st :
  (size - floor <= inject_Z (Z.of_nat fuel))%Q ->
  let r := fst (midshowLoop measure fuel text maxWidth floor size width st) in
  (snd r <= maxWidth)%Q \/ (fst r <= floor)%Q.
Proof.
  revert size width st; induction fuel as [|fuel IH]; intros size width st Hf.
  - right. cbn. cbn in Hf.
    apply Qplus_le_l with (z := (- floor)%Q). rewrite Qplus_opp_r. exact Hf.
  - cbn [midshowLoop].
    destruct (Qle_bool_cases width maxWidth) as [[-> Hw]|[-> Hw]];
      cbn [negb andb]; [left; exact Hw|].
    destruct (Qle_bool_cases size floor) as [[-> Hs]|[-> Hs]];
      cbn [negb andb]; [right; exact Hs|].
    unfold bind, setFontSize, getTextWidth. cbn [doc fontStyle fontSize].
    apply IH.
    rewrite Nat2Z.inj_succ, <- Z.add_1_r, inject_Z_plus in Hf.
    apply Qplus_le_l with (z := 1%Q).
    setoid_replace (size - 1 - floor + 1)%Q with (size - floor)%Q by ring.
    exact Hf.
Qed.

Lemma Qceiling_fuel base :
  (base - 8 <= inject_Z (Z.of_nat (Z.to_nat (Qceiling base))))%Q.
Proof.
  pose proof (Qle_ceiling base) as Hc.
  destruct (Z.le_gt_cases 0 (Qceiling base)) as [H|H].
  - rewrite Z2Nat.id by exact H.
    apply Qle_trans with base; [|exact Hc].
    apply Qplus_le_l with (z := 8%Q).
    setoid_replace (base - 8 + 8)%Q with (base + 0)%Q by ring.
    apply Qplus_le_r. discriminate.
  - replace (Z.to_nat (Qceiling base)) with O by lia.
    apply Qle_trans with (inject_Z (Qceiling base) - 8)%Q.
    + apply Qplus_le_l with (z := 8%Q).
      setoid_replace (base - 8 + 8)%Q with base by ring.
      setoid_replace (inject_Z (Qceiling base) - 8 + 8)%Q
        with (inject_Z (Qceiling base)) by ring.
      exact Hc.
    + change (inject_Z (Z.of_nat 0)) with (inject_Z 0).
      setoid_replace (inject_Z (Qceiling base) - 8)%Q
        with (inject_Z (Qceiling base - 8)).
      * rewrite <- Zle_Qle. lia.
      * unfold Zminus. rewrite inject_Z_plus, inject_Z_opp. reflexivity.
Qed.

(** A label that fits at the plan's break size is drawn at that size. *)
Lemma calculateMidshowFontSize_fits text maxWidth base st :
  (widthAt measure st base (convertCzechCharacters text) <= maxWidth)%Q ->
  fst (calculateMidshowFontSize measure text maxWidth base st) = base.
Proof.
  intros H. apply Qle_bool_iff in H.
  unfold calculateMidshowFontSize, bind, ret, setFontSize, getTextWidth,
    consoleLog.
  cbn [doc fontStyle fontSize fst snd].
  destruct (Z.to_nat (Qceiling base)) as [|fuel]; [reflexivity|].
  cbn [midshowLoop]. unfold widthAt in H. rewrite H. reflexivity.
Qed.

(** The fuel [calculateMidshowFontSize] gives its loop is enough: the loop
    ends because the label fits or the size is at most 8. *)
Lemma calculateMidshowFontSize_loop_exits text maxWidth base width st :
  let r :=
    fst (midshowLoop measure (Z.to_nat (Qceiling base)) text maxWidth 8 base
           width st) in
  (snd r <= maxWidth)%Q \/ (fst r <= 8)%Q.
Proof. apply midshowLoop_exit. apply Qceiling_fuel. Qed.

End MidshowFontSize.

(** C9, at the failing input.  For five songs and ten breaks the plan's
    break size is 34.8 points, not a whole number.  A label too wide for
    the break column at every size is then taken down point by point past
    the floor: the loop leaves 8.8 for 7.8, and the stage view draws the
    label at 7.8 points, below the 8 points the source means as the
    smallest size. *)
Theorem calculateMidshowFontSize_below_floor :
  let base := midshowFontSize (calculateFontSizes longBreaks) in
  let size :=
    fst (calculateMidshowFontSize fixedPitch longLabel (contentWidth - 15)
           base freshState) in
  let drawn :=
    textSizes 16
      (calls (doc (snd (addSetlistContent fixedPitch longBreaks freshState)))) in
  (base == 34.8)%Q
  /\ (size == 7.8)%Q
  /\ (size < 8)%Q
  /\ existsb (fun p => JS.eqb (fst p) longLabel && Qeq_bool (snd p) 7.8)
       drawn = true.
Proof.
  cbv zeta. repeat split; vm_compute; reflexivity.
Qed.

(** ** Morpheme substitution *)

Section MorphemeSubstitution.

Lemma eqb_eq (a b : jsstring) : JS.eqb a b = true -> a = b.
Proof.
  revert b; induction a as [|x a IH]; intros [|y b]; cbn; try discriminate.
  - reflexivity.
  - rewrite andb_true_iff. intros [E1 E2].
    apply N.eqb_eq in E1. rewrite E1, (IH b E2). reflexivity.
Qed.

Lemma equalIgnoringCase_length a b :
  equalIgnoringCase a b = true -> List.length a = List.length b.
Proof.
  revert b; induction a as [|x a IH]; intros [|y b]; cbn; try discriminate.
  - reflexivity.
  - rewrite andb_true_iff. intros [_ E]. rewrite (IH b E). reflexivity.
Qed.

(** A letter of a key never matches a unit outside the word characters. *)
Lemma letter_mismatch k c :
  isLowerLetter k = true -> isWordChar c = false ->
  charMatches true k c = false.
Proof.
  unfold isLowerLetter, isWordChar, charMatches, canonicalize.
  intros Hk Hc. rewrite Hk.
  apply andb_true_iff in Hk. destruct Hk as [K1 K2].
  apply N.leb_le in K1, K2.
  repeat rewrite orb_false_iff in Hc. destruct Hc as [[[_ C2] C3] _].
  rewrite C3. apply N.eqb_neq. intros E.
  rewrite andb_false_iff in C2. rewrite !N.leb_gt in C2. lia.
Qed.

Section OnePass.

Variables key abbrev : jsstring.
Hypothesis key_valid : validKey key = true.

Lemma key_letters : forallb isLowerLetter key = true.
Proof. destruct key; [discriminate|exact key_valid]. Qed.

Lemma key_nonempty : key <> [].
Proof. intros E. rewrite E in key_valid. discriminate. Qed.

(** The literals and the closing assertion against a run of word
    characters followed by [tail]: a match exactly when the run equals the
    key up to case. *)
Lemma matchHere_literals (letters : jsstring) prev run tail :
  forallb isLowerLetter letters = true ->
  letters <> [] \/ isWordAt prev = true ->
  Forall (fun c => isWordChar c = true) run ->
  startsOutsideWord tail ->
  matchHere true (literally letters ++ [WordBoundary]) prev (run ++ tail)
  = if equalIgnoringCase letters run then Some (List.length letters)
    else None.
Proof.
  revert prev run; induction letters as [|k letters IH];
    intros prev run Hl Hp Hrun Htail.
  - destruct Hp as [Hp|Hp]; [congruence|].
    cbn [literally List.map app matchHere]. rewrite Hp.
    destruct run as [|x run].
    + cbn [app]. destruct tail as [|c tail]; cbn; [reflexivity|].
      cbn in Htail. rewrite Htail. reflexivity.
    + apply Forall_inv in Hrun. cbn [app hd_error isWordAt].
      rewrite Hrun. reflexivity.
  - cbn in Hl. apply andb_true_iff in Hl. destruct Hl as [Hk Hl].
    cbn [literally List.map app matchHere].
    destruct run as [|x run].
    + cbn [app equalIgnoringCase]. destruct tail as [|c tail]; [reflexivity|].
      cbn in Htail. rewrite (letter_mismatch k c Hk Htail). reflexivity.
    + cbn [app equalIgnoringCase].
      destruct (charMatches true k x); [|reflexivity]. cbn [andb].
      change (List.map Lit letters) with (literally letters).
      rewrite IH; [|exact Hl| |exact (Forall_inv_tail Hrun)|exact Htail].
      * destruct (equalIgnoringCase letters run); reflexivity.
      * right. exact (Forall_inv Hrun).
Qed.

(** After a word character the opening assertion fails on a word
    character, and the first letter fails on anything else. *)
Lemma replaceFrom_after_word p tail :
  isWordChar p = true -> startsOutsideWord tail ->
  replaceFrom true (wholeWord key) abbrev O (Some p) tail = afterRun key abbrev tail.
Proof.
  intros Hp Htail. pose proof key_letters as Hl. pose proof key_nonempty as Hn.
  unfold wholeWord, afterRun.
  destruct key as [|k letters]; [congruence|].
  cbn in Hl. apply andb_true_iff in Hl. destruct Hl as [Hk _].
  destruct tail as [|c tail].
  - cbn. rewrite Hp. reflexivity.
  - cbn in Htail. cbn [replaceFrom matchHere isWordAt hd_error].
    rewrite Hp, Htail. cbn [xorb literally List.map app matchHere].
    rewrite (letter_mismatch k c Hk Htail). reflexivity.
Qed.

Lemma replaceFrom_inside p run tail :
  isWordChar p = true ->
  Forall (fun c => isWordChar c = true) run ->
  startsOutsideWord tail ->
  replaceFrom true (wholeWord key) abbrev O (Some p) (run ++ tail)
  = run ++ afterRun key abbrev tail.
Proof.
  revert p; induction run as [|x run IH]; intros p Hp Hrun Htail.
  - apply replaceFrom_after_word; assumption.
  - pose proof (Forall_inv Hrun) as Hx. cbn in Hx.
    cbn [app replaceFrom]. unfold wholeWord at 1.
    cbn [matchHere isWordAt hd_error]. rewrite Hp, Hx. cbn [xorb].
    rewrite IH; [reflexivity|exact Hx| |exact Htail].
    exact (Forall_inv_tail Hrun).
Qed.

(** Skipping the units of a match. *)
Lemma replaceFrom_skip run prev tail :
  isWordAt prev = true ->
  Forall (fun c => isWordChar c = true) run ->
  exists p,
    isWordChar p = true
    /\ replaceFrom true (wholeWord key) abbrev (List.length run) prev (run ++ tail)
       = replaceFrom true (wholeWord key) abbrev O (Some p) tail.
Proof.
  revert prev; induction run as [|x run IH]; intros prev Hp Hrun.
  - destruct prev as [p|]; [|discriminate]. exists p. split; [exact Hp|].
    reflexivity.
  - cbn [List.length app replaceFrom]. apply IH.
    + exact (Forall_inv Hrun).
    + exact (Forall_inv_tail Hrun).
Qed.

(** One pass on a run of word characters that starts at a word boundary,
    followed by [tail]. *)
Lemma replaceFrom_run prev run tail :
  isWordAt prev = false ->
  Forall (fun c => isWordChar c = true) run ->
  startsOutsideWord tail ->
  replaceFrom true (wholeWord key) abbrev O prev (run ++ tail)
  = onRun (fun w => if equalIgnoringCase key w then abbrev else w) run
      ++ afterRun key abbrev tail.
Proof.
  intros Hp Hrun Htail. destruct run as [|x run].
  - cbn [app onRun]. unfold afterRun.
    destruct tail as [|c tail].
    + cbn. rewrite Hp. reflexivity.
    + cbn in Htail. cbn [replaceFrom]. unfold wholeWord at 1.
      cbn [matchHere isWordAt hd_error].
      rewrite Hp, Htail. reflexivity.
  - pose proof (Forall_inv Hrun) as Hx. cbn in Hx.
    pose proof (Forall_inv_tail Hrun) as Hrest.
    cbn [onRun]. change ((x :: run) ++ tail) with (x :: run ++ tail).
    cbn [replaceFrom]. unfold wholeWord at 1.
    cbn [matchHere isWordAt hd_error]. rewrite Hp, Hx. cbn [xorb].
    change (x :: run ++ tail) with ((x :: run) ++ tail).
    rewrite matchHere_literals;
      [|exact key_letters|left; exact key_nonempty|exact Hrun|exact Htail].
    destruct (equalIgnoringCase key (x :: run)) eqn:E.
    + rewrite (equalIgnoringCase_length _ _ E). cbn [List.length].
      destruct (replaceFrom_skip run (Some x) tail Hx Hrest) as (p & Hw & ->).
      rewrite replaceFrom_after_word by assumption. reflexivity.
    + rewrite replaceFrom_inside by assumption. reflexivity.
Qed.

(** One pass replaces the runs that equal the key up to case and nothing
    else. *)
Lemma replaceFrom_mapRuns s run prev :
  isWordAt prev = false ->
  Forall (fun c => isWordChar c = true) run ->
  replaceFrom true (wholeWord key) abbrev O prev (run ++ s)
  = mapRunsFrom (fun w => if equalIgnoringCase key w then abbrev else w)
      run s.
Proof.
  revert run prev; induction s as [|c s IH]; intros run prev Hp Hrun.
  - rewrite replaceFrom_run by (try assumption; exact I).
    cbn. apply app_nil_r.
  - cbn [mapRunsFrom]. destruct (isWordChar c) eqn:Ec.
    + change (c :: s) with ([c] ++ s). rewrite app_assoc.
      apply IH; [exact Hp|].
      apply Forall_app. split; [exact Hrun|]. constructor; [exact Ec|constructor].
    + rewrite replaceFrom_run by assumption.
      cbn [afterRun].
      rewrite <- (IH [] (Some c)); [reflexivity|exact Ec|constructor].
Qed.

Lemma morphemePass_mapRuns s :
  morphemePass (key, abbrev) s
  = mapRuns (fun w => if equalIgnoringCase key w then abbrev else w) s.
Proof.
  unfold morphemePass, replaceAll, mapRuns. cbn [fst snd].
  apply (replaceFrom_mapRuns s [] None); [reflexivity|constructor].
Qed.

End OnePass.

(** A unit outside the word characters cuts the string in two for
    [mapRunsFrom]. *)
Lemma mapRunsFrom_split f run a c rest :
  isWordChar c = false ->
  mapRunsFrom f run (a ++ c :: rest)
  = mapRunsFrom f run a ++ c :: mapRunsFrom f [] rest.
Proof.
  intros Hc. revert run; induction a as [|x a IH]; intros run.
  - cbn. rewrite Hc. reflexivity.
  - cbn [app mapRunsFrom]. destruct (isWordChar x).
    + apply IH.
    + rewrite IH, <- app_assoc. reflexivity.
Qed.

(** A run of word characters is one run. *)
Lemma mapRunsFrom_run f run w :
  Forall (fun c => isWordChar c = true) w ->
  mapRunsFrom f run w = onRun f (run ++ w).
Proof.
  revert run; induction w as [|x w IH]; intros run Hw.
  - cbn. rewrite app_nil_r. reflexivity.
  - cbn [mapRunsFrom]. rewrite (Forall_inv Hw).
    rewrite IH by exact (Forall_inv_tail Hw).
    rewrite <- app_assoc. reflexivity.
Qed.

Lemma mapRunsFrom_identity run s : mapRunsFrom (fun w => w) run s = run ++ s.
Proof.
  revert run; induction s as [|c s IH]; intros run.
  - cbn. destruct run; [reflexivity|]. cbn. rewrite app_nil_r. reflexivity.
  - cbn [mapRunsFrom]. destruct (isWordChar c).
    + rewrite IH, <- app_assoc. reflexivity.
    + rewrite IH. destruct run; reflexivity.
Qed.

(** Two functions that agree on the runs of word characters give the same
    map. *)
Lemma mapRunsFrom_ext f g run s :
  (forall w, w <> [] -> Forall (fun c => isWordChar c = true) w -> f w = g w) ->
  Forall (fun c => isWordChar c = true) run ->
  mapRunsFrom f run s = mapRunsFrom g run s.
Proof.
  intros Hfg. revert run; induction s as [|c s IH]; intros run Hrun.
  - cbn. destruct run; [reflexivity|]. apply Hfg; [discriminate|exact Hrun].
  - cbn [mapRunsFrom]. destruct (isWordChar c) eqn:Ec.
    + apply IH. apply Forall_app. split; [exact Hrun|].
      constructor; [exact Ec|constructor].
    + rewrite (IH [] (Forall_nil _)). f_equal.
      destruct run; [reflexivity|]. apply Hfg; [discriminate|exact Hrun].
Qed.

(** Mapping the runs twice is mapping them once with the composite. *)
Lemma mapRuns_compose f g run s :
  mapRuns g (mapRunsFrom f run s)
  = mapRunsFrom (fun w => mapRuns g (f w)) run s.
Proof.
  revert run; induction s as [|c s IH]; intros run.
  - cbn. destruct run; reflexivity.
  - cbn [mapRunsFrom]. destruct (isWordChar c) eqn:Ec.
    + apply IH.
    + unfold mapRuns at 1. rewrite mapRunsFrom_split by exact Ec.
      fold (mapRuns g (mapRunsFrom f [] s)). rewrite IH.
      destruct run; reflexivity.
Qed.

Lemma abbreviateWith_cons key abbrev rest w :
  abbreviateWith ((key, abbrev) :: rest) w
  = if equalIgnoringCase key w then abbrev else abbreviateWith rest w.
Proof.
  unfold abbreviateWith. cbn [List.find fst snd].
  destruct (equalIgnoringCase key w); reflexivity.
Qed.

(** The passes of a settled dictionary replace every run of word
    characters by its abbreviation. *)
Lemma morphemePasses_mapRuns dictionary :
  settled dictionary = true ->
  forall s, morphemePasses dictionary s = mapRuns (abbreviateWith dictionary) s.
Proof.
  induction dictionary as [|[key abbrev] rest IH]; intros Hs s.
  - unfold mapRuns, abbreviateWith. cbn [List.find morphemePasses fold_left].
    symmetry. apply (mapRunsFrom_identity [] s).
  - cbn [settled fst snd] in Hs.
    apply andb_true_iff in Hs. destruct Hs as [Hs Hrest].
    apply andb_true_iff in Hs. destruct Hs as [Hkey Hstable].
    apply eqb_eq in Hstable.
    change (morphemePasses ((key, abbrev) :: rest) s)
      with (morphemePasses rest (morphemePass (key, abbrev) s)).
    rewrite (IH Hrest), (morphemePass_mapRuns key abbrev Hkey).
    unfold mapRuns at 2. rewrite mapRuns_compose.
    apply mapRunsFrom_ext; [|constructor].
    intros w Hne Hw. rewrite abbreviateWith_cons.
    destruct (equalIgnoringCase key w).
    + rewrite <- (IH Hrest). exact Hstable.
    + unfold mapRuns. rewrite mapRunsFrom_run by exact Hw.
      destruct w; [congruence|reflexivity].
Qed.

Lemma commonAbbreviations_settled : settled commonAbbreviations = true.
Proof. vm_compute. reflexivity. Qed.

Lemma abbreviate_not_listed w :
  existsb (fun e => equalIgnoringCase (fst e) w) commonAbbreviations = false ->
  abbreviate w = w.
Proof.
  unfold abbreviate, abbreviateWith.
  generalize commonAbbreviations as d.
  induction d as [|e d IH]; cbn [existsb List.find]; [reflexivity|].
  destruct (equalIgnoringCase (fst e) w); [discriminate|]. exact IH.
Qed.

Lemma abbreviate_listed w :
  existsb (fun e => equalIgnoringCase (fst e) w) commonAbbreviations = true ->
  In (abbreviate w) (List.map snd commonAbbreviations).
Proof.
  unfold abbreviate, abbreviateWith.
  generalize commonAbbreviations as d.
  induction d as [|e d IH]; cbn [existsb List.find List.map]; [discriminate|].
  destruct (equalIgnoringCase (fst e) w).
  - intros _. left. reflexivity.
  - intros H. right. apply IH. exact H.
Qed.

(** C10.  Morpheme substitution replaces every maximal run of word
    characters that equals a key of [commonAbbreviations] up to case by
    the literal abbreviation of the first such key, whatever the case of
    the run: Tonight gives tnght and The gives the.  A run that equals no
    key is kept as it is, every other unit is kept, and no dictionary but
    the 22 entries of [commonAbbreviations] is consulted: love and
    wonderful, keys of [morphemeMap] only, are left alone. *)
Theorem applyMorphemeShortening_runs (phrase : jsstring) :
  applyMorphemeShortening phrase = mapRuns abbreviate phrase
  /\ (forall w,
        existsb (fun e => equalIgnoringCase (fst e) w) commonAbbreviations
        = true ->
        In (abbreviate w) (List.map snd commonAbbreviations))
  /\ (forall w,
        existsb (fun e => equalIgnoringCase (fst e) w) commonAbbreviations
        = false ->
        abbreviate w = w)
  /\ applyMorphemeShortening (lit "Tonight") = lit "tnght"
  /\ applyMorphemeShortening (lit "The") = lit "the"
  /\ applyMorphemeShortening (lit "Wonderful love") = lit "Wonderful love"
  /\ List.length commonAbbreviations = 22%nat.
Proof.
  split.
  - apply (morphemePasses_mapRuns commonAbbreviations
             commonAbbreviations_settled).
  - split; [exact abbreviate_listed|]. split; [exact abbreviate_not_listed|].
    repeat split; vm_compute; reflexivity.
Qed.

End MorphemeSubstitution.

Lemma applyMorphemeShortening_runs_witness :
  abbreviate (lit "Band") = lit "Band".
Proof.
  apply (proj1 (proj2 (proj2 (applyMorphemeShortening_runs [])))).
  vm_compute. reflexivity.
Defined.

(** ** Export *)

Section ExportMethod.

Variable measure : oracle.
Variable numberToString : Q -> jsstring.
Variable today : jsstring.

(** C8.  Exporting the empty setlist returns normally and leaves
    everything as it was: [this.doc] is not assigned, so no document is
    created, no call is made on a document, nothing is saved and nothing
    is thrown, whether or not the jsPDF library is loaded. *)
Theorem export_empty_setlist (songs : option (list SongData)) (w : World) :
  export measure numberToString today [] songs w = Normal w.
Proof. reflexivity. Qed.

(** A setlist with an entry needs the library: without it the
    destructuring of [window.jspdf] throws. *)
Lemma export_without_library item setlist songs w :
  window_jspdf w = false ->
  export measure numberToString today (item :: setlist) songs w
  = Throw (lit "TypeError").
Proof.
  intros H. unfold export. cbn [List.length Z.of_nat Z.eqb]. rewrite H.
  reflexivity.
Qed.

(** With the library a document is created, and the last call made on it
    saves the file. *)
Lemma export_saves item setlist songs w :
  window_jspdf w = true ->
  exists w' d cs,
    export measure numberToString today (item :: setlist) songs w = Normal w'
    /\ this_doc w' = Some d
    /\ calls d
       = cs ++ [Save (lit "setlist-"
                        ++ replaceAll false [Lit 47%N] (lit "-") today
                        ++ lit ".pdf")].
Proof.
  intros H. unfold export. cbn [List.length Z.of_nat Z.eqb]. rewrite H.
  cbn [negb]. unfold bind.
  destruct (addSetlistContent measure (item :: setlist) _) as [u1 s1].
  destruct (call AddPage s1) as [u2 s2].
  destruct (addOrganizerSection measure numberToString (item :: setlist) _ s2)
    as [u3 s3].
  unfold save, call. cbn [doc calls].
  eexists _, _, _. split; [reflexivity|]. split; reflexivity.
Qed.

End ExportMethod.

(** * Further properties *)

(** ** Transliteration: what is changed and what is left *)

Section TransliterationRange.

Lemma eqb_unit k c : JS.eqb [k] [c] = N.eqb c k.
Proof. cbn. rewrite andb_true_r. apply N.eqb_sym. Qed.

Lemma isCzechKey_units c :
  isCzechKey c = existsb (N.eqb c) (List.map (@fst char char) czechUnits).
Proof.
  unfold isCzechKey, czechUnits, czechFallbacks.
  cbn [List.map existsb fst snd hd]. rewrite !eqb_unit. reflexivity.
Qed.

Lemma existsb_false_not_in c (keys : list char) :
  existsb (N.eqb c) keys = false -> ~ In c keys.
Proof.
  intros H Hin.
  assert (E : existsb (N.eqb c) keys = true).
  { apply existsb_exists. exists c. split; [exact Hin|apply N.eqb_refl]. }
  congruence.
Qed.

Lemma not_in_existsb_false c (keys : list char) :
  ~ In c keys -> existsb (N.eqb c) keys = false.
Proof.
  intros H. destruct (existsb (N.eqb c) keys) eqn:E; [|reflexivity].
  apply existsb_exists in E. destruct E as (x & Hx & E).
  apply N.eqb_eq in E. subst x. contradiction.
Qed.

(** A key is replaced by an output of the table. *)
Lemma translitUnit_key_replaced table c :
  (forall a, In a (List.map snd table) -> ~ In a (List.map fst table)) ->
  In c (List.map fst table) ->
  In (translitUnit table c) (List.map snd table).
Proof.
  induction table as [|[k a] table IH]; intros Hno Hc; [destruct Hc|].
  rewrite translitUnit_cons. unfold replaceUnit; cbn [fst snd List.map].
  destruct (N.eqb_spec k c) as [->|Hkc].
  - left. symmetry. apply translitUnit_not_key.
    intros Hin. apply (Hno a); [left; reflexivity|right; exact Hin].
  - right. apply IH.
    + intros x Hx Hin. apply (Hno x); right; assumption.
    + destruct Hc as [Hc|Hc]; [cbn in Hc; congruence|exact Hc].
Qed.

(** The image of a unit is no key of the table. *)
Lemma translitUnit_no_key table c :
  noOutputIsKey table = true ->
  ~ In (translitUnit table c) (List.map fst table).
Proof.
  intros H. pose proof (noOutputIsKey_spec table H) as Hout.
  destruct (in_dec N.eq_dec c (List.map fst table)) as [Hin|Hnot].
  - apply Hout. apply translitUnit_key_replaced; assumption.
  - rewrite translitUnit_not_key by exact Hnot. exact Hnot.
Qed.

(** X1.  Transliteration keeps the length of the text, and no accented
    letter of the table is left in its result. *)
Theorem convertCzechCharacters_clears_keys (s : jsstring) :
  List.length (convertCzechCharacters s) = List.length s
  /\ forall c, In c (convertCzechCharacters s) -> isCzechKey c = false.
Proof.
  rewrite convertCzechCharacters_map. split; [apply length_map|].
  intros c Hc. apply in_map_iff in Hc. destruct Hc as (x & <- & _).
  rewrite isCzechKey_units. apply not_in_existsb_false.
  apply translitUnit_no_key. reflexivity.
Qed.

(** X2.  A text that holds no key of the table is returned as it is; so
    is, in particular, every ASCII text. *)
Theorem convertCzechCharacters_leaves_other_text (s : jsstring) :
  ((forall c, In c s -> isCzechKey c = false) ->
   convertCzechCharacters s = s)
  /\ ((forall c, In c s -> (c < 128)%N) -> convertCzechCharacters s = s).
Proof.
  assert (G : (forall c, In c s -> isCzechKey c = false) ->
              convertCzechCharacters s = s).
  { intros H. rewrite convertCzechCharacters_map.
    rewrite <- (map_id s) at 2. apply map_ext_in. intros c Hc.
    apply translitUnit_not_key. apply existsb_false_not_in.
    rewrite <- isCzechKey_units. apply H. exact Hc. }
  split; [exact G|].
  intros H. apply G. intros c Hc. specialize (H c Hc).
  rewrite isCzechKey_units. apply not_in_existsb_false.
  unfold czechUnits, czechFallbacks. cbn [List.map fst snd hd In].
  intros Hin.
  repeat (destruct Hin as [E|Hin]; [rewrite <- E in H; vm_compute in H;
                                    discriminate H|]).
  exact Hin.
Qed.

End TransliterationRange.

Lemma convertCzechCharacters_leaves_other_text_witness :
  convertCzechCharacters (lit "Song 1") = lit "Song 1".
Proof.
  apply (proj2 (convertCzechCharacters_leaves_other_text (lit "Song 1"))).
  intros c Hc. cbn in Hc.
  repeat (destruct Hc as [<-|Hc]; [reflexivity|]). destruct Hc.
Defined.

(** ** Vowel removal: repeated and measured *)

Section VowelRemovalAgain.

Lemma word_ends (w : jsstring) :
  3 < len w -> exists a mid z, w = a :: mid ++ [z] /\ 2 <= len mid.
Proof.
  intros H. destruct w as [|a rest]; [cbn in H; lia|].
  assert (Hrest : rest <> []) by (intros ->; cbn in H; lia).
  exists a, (removelast rest), (last rest a). split.
  - rewrite <- app_removelast_last by exact Hrest. reflexivity.
  - rewrite (app_removelast_last a Hrest) in H.
    rewrite len_cons, len_app in H. change (len [last rest a]) with 1 in H.
    lia.
Qed.

Lemma filter_no_vowel_twice (s : jsstring) :
  List.filter (fun c => negb (isVowel c))
    (List.filter (fun c => negb (isVowel c)) s)
  = List.filter (fun c => negb (isVowel c)) s.
Proof.
  induction s as [|c s IH]; [reflexivity|]. cbn [List.filter].
  destruct (negb (isVowel c)) eqn:E; [|exact IH].
  cbn [List.filter]. rewrite E, IH. reflexivity.
Qed.

Lemma interiorKept_length mid :
  (List.length (interiorKept mid) <= List.length mid)%nat.
Proof.
  unfold interiorKept.
  pose proof (filter_length_le (fun c => negb (isVowel c)) mid) as H.
  destruct (List.filter (fun c => negb (isVowel c)) mid) as [|c stripped].
  - destruct (1 <? len mid); [|cbn; lia]. rewrite length_firstn. lia.
  - exact H.
Qed.

Lemma interiorKept_incl mid : incl (interiorKept mid) mid.
Proof.
  unfold interiorKept. intros x Hx.
  destruct (List.filter (fun c => negb (isVowel c)) mid) as [|c stripped] eqn:E.
  - destruct (1 <? len mid); [|destruct Hx].
    destruct mid as [|m mid]; [destruct Hx|]. cbn in Hx.
    destruct Hx as [<-|[]]. left; reflexivity.
  - rewrite <- E in Hx. apply filter_In in Hx. tauto.
Qed.

(** What is left of an interior has nothing more to lose. *)
Lemma interiorKept_settled mid :
  2 <= len (interiorKept mid) ->
  interiorKept (interiorKept mid) = interiorKept mid.
Proof.
  unfold interiorKept at 1 3.
  destruct (List.filter (fun c => negb (isVowel c)) mid) as [|c stripped] eqn:E.
  - destruct (1 <? len mid).
    + destruct mid; cbn; intros; lia.
    + cbn. lia.
  - intros _. unfold interiorKept.
    rewrite <- E, filter_no_vowel_twice, E. reflexivity.
Qed.

Lemma removeVowelsFromWord_length w :
  (List.length (removeVowelsFromWord w) <= List.length w)%nat.
Proof.
  destruct (Z.le_gt_cases (len w) 3) as [H|H].
  - rewrite removeVowelsFromWord_short by exact H. lia.
  - destruct (word_ends w) as (a & mid & z & -> & Hm); [lia|].
    rewrite removeVowelsFromWord_long by exact Hm.
    pose proof (interiorKept_length mid).
    cbn [List.length]. rewrite !length_app. cbn [List.length]. lia.
Qed.

Lemma removeVowelsFromWord_twice w :
  removeVowelsFromWord (removeVowelsFromWord w) = removeVowelsFromWord w.
Proof.
  destruct (Z.le_gt_cases (len w) 3) as [H|H].
  - rewrite (removeVowelsFromWord_short w H).
    apply removeVowelsFromWord_short. exact H.
  - destruct (word_ends w) as (a & mid & z & -> & Hm); [lia|].
    rewrite removeVowelsFromWord_long by exact Hm.
    destruct (Z.le_gt_cases 2 (len (interiorKept mid))) as [G|G].
    + rewrite removeVowelsFromWord_long by exact G.
      rewrite interiorKept_settled by exact G. reflexivity.
    + apply removeVowelsFromWord_short.
      rewrite len_cons, len_app. change (len [z]) with 1. lia.
Qed.

Lemma removeVowelsFromWord_no_space w :
  ~ In space w -> ~ In space (removeVowelsFromWord w).
Proof.
  intros Hw. destruct (Z.le_gt_cases (len w) 3) as [H|H].
  - rewrite removeVowelsFromWord_short by exact H. exact Hw.
  - destruct (word_ends w) as (a & mid & z & -> & Hm); [lia|].
    rewrite removeVowelsFromWord_long by exact Hm.
    intros Hin. apply Hw. destruct Hin as [E|Hin]; [left; exact E|right].
    apply in_app_iff in Hin. apply in_app_iff.
    destruct Hin as [Hin|Hin]; [left; apply interiorKept_incl|right];
      exact Hin.
Qed.

Lemma split_from_app sep cur w rest :
  ~ In sep w ->
  split_from sep cur (w ++ rest) = split_from sep (cur ++ w) rest.
Proof.
  revert cur; induction w as [|c w IH]; intros cur Hw; cbn [app].
  - rewrite app_nil_r. reflexivity.
  - cbn [split_from]. destruct (N.eqb_spec c sep) as [->|_].
    + exfalso. apply Hw. left; reflexivity.
    + rewrite IH by (intros Hin; apply Hw; right; exact Hin).
      rewrite <- app_assoc. reflexivity.
Qed.

(** Splitting what was joined gives the pieces back, when no piece holds
    the separator. *)
Lemma split_join sep ws :
  ws <> [] -> Forall (fun w => ~ In sep w) ws ->
  split sep (join [sep] ws) = ws.
Proof.
  unfold split. intros Hne Hall. induction Hall as [|w ws Hw Hall IH];
    [congruence|].
  destruct ws as [|w' ws].
  - cbn [join]. rewrite <- (app_nil_r w) at 1.
    rewrite split_from_app by exact Hw. reflexivity.
  - rewrite join_cons by discriminate.
    rewrite split_from_app by exact Hw. cbn [app split_from].
    rewrite N.eqb_refl. cbn [app]. rewrite IH by discriminate. reflexivity.
Qed.

Lemma join_length_le (f : jsstring -> jsstring) sep ws :
  (forall w, (List.length (f w) <= List.length w)%nat) ->
  (List.length (join sep (List.map f ws)) <= List.length (join sep ws))%nat.
Proof.
  intros Hf. induction ws as [|w ws IH]; [cbn; lia|].
  destruct ws as [|w' ws]; [cbn; apply Hf|].
  cbn [List.map] in *.
  rewrite (join_cons sep (f w) (f w' :: List.map f ws)) by discriminate.
  rewrite (join_cons sep w (w' :: ws)) by discriminate.
  rewrite !length_app. specialize (Hf w). lia.
Qed.

(** X3.  Vowel removal is idempotent: a phrase once through the stage is
    left as it is by a second pass. *)
Theorem applyVowelRemoval_idempotent (phrase : jsstring) :
  applyVowelRemoval (applyVowelRemoval phrase) = applyVowelRemoval phrase.
Proof.
  unfold applyVowelRemoval.
  rewrite split_join.
  - rewrite map_map. f_equal. apply map_ext. apply removeVowelsFromWord_twice.
  - intros E. apply map_eq_nil in E. revert E. apply split_from_nonempty.
  - apply Forall_map.
    eapply Forall_impl; [|apply (split_from_no_sep space [] phrase); intros []].
    intros w Hw. apply removeVowelsFromWord_no_space. exact Hw.
Qed.

Lemma applyVowelRemoval_length phrase :
  len (applyVowelRemoval phrase) <= len phrase.
Proof.
  unfold applyVowelRemoval, len.
  pose proof (join_length_le removeVowelsFromWord [space]
                (split space phrase) removeVowelsFromWord_length) as H.
  unfold split in *.
  rewrite (join_split_from space [] phrase) in H. cbn [app] in H. lia.
Qed.

(** X4.  Vowel removal never lengthens a phrase, and returns a phrase
    whose words all have at most three units as it is. *)
Theorem applyVowelRemoval_never_longer (phrase : jsstring) :
  len (applyVowelRemoval phrase) <= len phrase
  /\ (Forall (fun w => len w <= 3) (split space phrase) ->
      applyVowelRemoval phrase = phrase).
Proof.
  split.
  - apply applyVowelRemoval_length.
  - intros Hall. unfold applyVowelRemoval, split in *.
    rewrite <- (join_split_from space [] phrase) at 2. cbn [app].
    f_equal. rewrite <- (map_id (split_from space [] phrase)) at 2.
    apply map_ext_in. intros w Hw. apply removeVowelsFromWord_short.
    rewrite Forall_forall in Hall. apply Hall. exact Hw.
Qed.

End VowelRemovalAgain.

Lemma applyVowelRemoval_never_longer_witness :
  applyVowelRemoval (lit "Let it be") = lit "Let it be".
Proof.
  apply (proj2 (applyVowelRemoval_never_longer (lit "Let it be"))).
  repeat constructor; vm_compute; intros E; discriminate E.
Defined.

(** ** Morpheme substitution: repeated and measured *)

Section MorphemeSubstitutionAgain.

Lemma applyMorphemeShortening_mapRuns s :
  applyMorphemeShortening s = mapRuns abbreviate s.
Proof.
  apply (morphemePasses_mapRuns commonAbbreviations
           commonAbbreviations_settled).
Qed.

Lemma onRun_length (f : jsstring -> jsstring) run :
  (forall w, (List.length (f w) <= List.length w)%nat) ->
  (List.length (onRun f run) <= List.length run)%nat.
Proof. intros Hf. destruct run; [cbn; lia|apply Hf]. Qed.

Lemma mapRunsFrom_length (f : jsstring -> jsstring) run s :
  (forall w, (List.length (f w) <= List.length w)%nat) ->
  (List.length (mapRunsFrom f run s) <= List.length run + List.length s)%nat.
Proof.
  intros Hf. revert run; induction s as [|c s IH]; intros run;
    cbn [mapRunsFrom].
  - pose proof (onRun_length f run Hf). cbn [List.length]. lia.
  - destruct (isWordChar c).
    + specialize (IH (run ++ [c])). rewrite length_app in IH.
      cbn [List.length] in *. lia.
    + pose proof (onRun_length f run Hf). specialize (IH []).
      rewrite length_app. cbn [List.length] in *. lia.
Qed.

(** The abbreviation of a word is the word or an output of the
    dictionary. *)
Lemma abbreviateWith_cases dictionary w :
  abbreviateWith dictionary w = w
  \/ exists e, In e dictionary
               /\ equalIgnoringCase (fst e) w = true
               /\ abbreviateWith dictionary w = snd e.
Proof.
  unfold abbreviateWith.
  destruct (List.find (fun e => equalIgnoringCase (fst e) w) dictionary)
    as [e|] eqn:E; [right|left; reflexivity].
  apply find_some in E. exists e. tauto.
Qed.

Lemma abbreviateWith_length dictionary w :
  abbreviationsShorter dictionary = true ->
  (List.length (abbreviateWith dictionary w) <= List.length w)%nat.
Proof.
  intros H. destruct (abbreviateWith_cases dictionary w) as [->|(e & He & M & ->)];
    [lia|].
  unfold abbreviationsShorter in H. rewrite forallb_forall in H.
  specialize (H e He). apply Nat.leb_le in H.
  apply equalIgnoringCase_length in M. unfold jsstring, char in *. lia.
Qed.

(** X5.  Morpheme substitution is idempotent: no abbreviation it writes
    is touched by a second pass. *)
Theorem applyMorphemeShortening_idempotent (phrase : jsstring) :
  applyMorphemeShortening (applyMorphemeShortening phrase)
  = applyMorphemeShortening phrase.
Proof.
  rewrite !applyMorphemeShortening_mapRuns.
  unfold mapRuns at 2. rewrite mapRuns_compose.
  apply mapRunsFrom_ext; [|constructor].
  intros w Hne Hw.
  destruct (abbreviateWith_cases commonAbbreviations w)
    as [E|(e & He & _ & E)]; unfold abbreviate; rewrite E.
  - unfold mapRuns. rewrite mapRunsFrom_run by exact Hw. cbn [app].
    destruct w; [congruence|]. cbn [onRun]. exact E.
  - fold abbreviate. rewrite <- applyMorphemeShortening_mapRuns.
    assert (F : abbreviationsFixed commonAbbreviations = true)
      by (vm_compute; reflexivity).
    unfold abbreviationsFixed in F. rewrite forallb_forall in F.
    apply eqb_eq. apply (F e He).
Qed.

Lemma applyMorphemeShortening_length phrase :
  len (applyMorphemeShortening phrase) <= len phrase.
Proof.
  rewrite applyMorphemeShortening_mapRuns. unfold mapRuns, len.
  pose proof (mapRunsFrom_length abbreviate [] phrase) as H.
  cbn [List.length] in H. apply inj_le. apply H.
  intros w. apply abbreviateWith_length. vm_compute. reflexivity.
Qed.

(** X6.  Morpheme substitution never lengthens a phrase: every
    abbreviation is at most as long as the word it stands for. *)
Theorem applyMorphemeShortening_never_longer (phrase : jsstring) :
  len (applyMorphemeShortening phrase) <= len phrase
  /\ forall w, len (abbreviate w) <= len w.
Proof.
  split; [apply applyMorphemeShortening_length|].
  intros w. unfold len. apply inj_le.
  apply abbreviateWith_length. vm_compute. reflexivity.
Qed.

End MorphemeSubstitutionAgain.

(** ** Aggressive truncation: lengths *)

Section TruncationLengths.

Variable measure : oracle.

Lemma word_two_ends (w : jsstring) :
  2 <= len w -> exists a mid z, w = a :: mid ++ [z] /\ len mid = len w - 2.
Proof.
  intros H. destruct w as [|a rest]; [cbn in H; lia|].
  assert (Hrest : rest <> []) by (intros ->; cbn in H; lia).
  exists a, (removelast rest), (last rest a). split.
  - rewrite <- app_removelast_last by exact Hrest. reflexivity.
  - rewrite (app_removelast_last a Hrest) at 2.
    rewrite len_cons, len_app. change (len [last rest a]) with 1. lia.
Qed.

Lemma last_snoc (s : jsstring) z d : last (s ++ [z]) d = z.
Proof. apply last_last. Qed.

(** Truncation to [n] units, [n] at least 1, gives the word's length or
    [n], whichever is less. *)
Lemma preserveWordShape_len word n :
  1 <= n -> len (preserveWordShape word n) = Z.min (len word) n.
Proof.
  intros Hn. destruct (Z.le_gt_cases (len word) n) as [H|H].
  - unfold preserveWordShape.
    destruct (Z.leb_spec (len word) n); [lia|lia].
  - destruct (word_two_ends word) as (a & mid & z & -> & Hm); [lia|].
    destruct (Z.le_gt_cases 3 n) as [H3|H3].
    + rewrite preserveWordShape_shape by lia.
      rewrite len_cons, len_app. change (len [z]) with 1.
      unfold len in *. rewrite length_firstn.
      unfold jsstring, char in *. lia.
    + unfold preserveWordShape.
      destruct (Z.leb_spec (len (a :: mid ++ [z])) n); [lia|].
      destruct (Z.leb_spec 3 n); [lia|].
      rewrite index_head.
      change (a :: mid ++ [z]) with ((a :: mid) ++ [z]) in *.
      rewrite index_last.
      destruct (Z.leb_spec 2 n).
      * change (len ([a] ++ [z])) with 2. lia.
      * change (len [a]) with 1. lia.
Qed.

Lemma preserveWordShape_ends word n :
  2 <= n ->
  hd_error (preserveWordShape word n) = hd_error word
  /\ last (preserveWordShape word n) 0%N = last word 0%N.
Proof.
  intros Hn. destruct (Z.le_gt_cases (len word) n) as [H|H].
  - unfold preserveWordShape.
    destruct (Z.leb_spec (len word) n); [split; reflexivity|lia].
  - destruct (word_two_ends word) as (a & mid & z & -> & Hm); [lia|].
    destruct (Z.le_gt_cases 3 n) as [H3|H3].
    + rewrite preserveWordShape_shape by lia. split; [reflexivity|].
      change (a :: mid ++ [z]) with ((a :: mid) ++ [z]).
      change (a :: firstn (Z.to_nat (n - 2)) mid ++ [z])
        with ((a :: firstn (Z.to_nat (n - 2)) mid) ++ [z]).
      rewrite !last_snoc. reflexivity.
    + unfold preserveWordShape.
      destruct (Z.leb_spec (len (a :: mid ++ [z])) n); [lia|].
      destruct (Z.leb_spec 3 n); [lia|].
      destruct (Z.leb_spec 2 n); [|lia].
      rewrite index_head.
      change (a :: mid ++ [z]) with ((a :: mid) ++ [z]).
      rewrite index_last, !last_snoc. split; reflexivity.
Qed.

(** X7.  Truncating a word to [n] units, [n] at least 1, gives a word of
    [min(length, n)] units; from [n = 2] on, its first and its last unit
    are those of the word. *)
Theorem preserveWordShape_length_and_ends (word : jsstring) (n : Z) :
  1 <= n ->
  len (preserveWordShape word n) = Z.min (len word) n
  /\ (2 <= n ->
      hd_error (preserveWordShape word n) = hd_error word
      /\ last (preserveWordShape word n) 0%N = last word 0%N).
Proof.
  intros Hn. split; [apply preserveWordShape_len; exact Hn|].
  apply preserveWordShape_ends.
Qed.

(** A word is never lengthened by its truncation. *)
Lemma shortenedWord_len word target :
  2 <= target ->
  len (if len word <=? target then word else preserveWordShape word target)
  <= len word.
Proof.
  intros Ht. destruct (len word <=? target); [lia|].
  rewrite preserveWordShape_len by lia. lia.
Qed.

Lemma weightOf_nonneg ws : 0 <= weightOf ws.
Proof.
  induction ws as [|w ws IH]; cbn [weightOf]; [lia|].
  pose proof (len_nonneg w). lia.
Qed.

(** Each word adds at most its length and one space. *)
Lemma aggressiveLoop_len total count i words result used :
  len (aggressiveLoop total count i words result used)
  <= len result + weightOf words.
Proof.
  revert i result used; induction words as [|word rest IH];
    intros i result used; cbn [aggressiveLoop weightOf]; [lia|].
  pose proof (weightOf_nonneg rest) as Hr. pose proof (len_nonneg word) as Hw.
  destruct (total - used <=? 0); [lia|].
  eapply Z.le_trans; [apply IH|].
  rewrite len_app.
  pose proof (shortenedWord_len word
                (Z.max 2 (Z.min (len word) ((total - used) / (count - i))))
                (Z.le_max_l _ _)) as Hs.
  destruct result as [|c result].
  - change (len []) with 0. lia.
  - rewrite len_app. change (len [space]) with 1. lia.
Qed.

(** The first word is written without a space before it. *)
Lemma aggressiveLoop_len_first total count i words used :
  words <> [] ->
  len (aggressiveLoop total count i words [] used) <= weightOf words - 1.
Proof.
  intros Hne. destruct words as [|word rest]; [congruence|].
  cbn [aggressiveLoop weightOf].
  pose proof (weightOf_nonneg rest) as Hr. pose proof (len_nonneg word) as Hw.
  destruct (total - used <=? 0); [change (len []) with 0; lia|].
  eapply Z.le_trans; [apply aggressiveLoop_len|].
  cbn [app].
  pose proof (shortenedWord_len word
                (Z.max 2 (Z.min (len word) ((total - used) / (count - i))))
                (Z.le_max_l _ _)) as Hs.
  lia.
Qed.

Lemma splitWs_from_weight inRun cur s :
  weightOf (splitWs_from inRun cur s) <= len cur + len s + 1.
Proof.
  revert inRun cur; induction s as [|c s IH]; intros inRun cur;
    cbn [splitWs_from].
  - cbn [weightOf]. change (len []) with 0. lia.
  - rewrite len_cons. pose proof (len_nonneg cur) as Hc.
    destruct (isWhiteSpace c).
    + destruct inRun.
      * specialize (IH true []). change (len []) with 0 in IH. lia.
      * cbn [weightOf]. specialize (IH true []).
        change (len []) with 0 in IH. lia.
    + specialize (IH false (cur ++ [c])). rewrite len_app in IH.
      change (len [c]) with 1 in IH. lia.
Qed.

Lemma splitWs_from_not_nil inRun cur s : splitWs_from inRun cur s <> [].
Proof.
  revert inRun cur; induction s as [|c s IH]; intros inRun cur;
    cbn [splitWs_from]; [discriminate|].
  destruct (isWhiteSpace c); [|apply IH].
  destruct inRun; [apply IH|discriminate].
Qed.

Lemma aggressiveShortening_len phrase maxWidth avgCharWidth :
  len (aggressiveShortening phrase maxWidth avgCharWidth) <= len phrase.
Proof.
  unfold aggressiveShortening.
  eapply Z.le_trans;
    [apply aggressiveLoop_len_first; apply splitWs_from_not_nil|].
  pose proof (splitWs_from_weight false [] phrase) as H.
  change (len []) with 0 in H. unfold splitWs. lia.
Qed.




Lemma convertCzechCharacters_len s : len (convertCzechCharacters s) = len s.
Proof.
  unfold len. rewrite convertCzechCharacters_map, length_map. reflexivity.
Qed.

Lemma shortenPhrase_len phrase maxWidth size isSong st :
  len (fst (shortenPhrase measure phrase maxWidth size isSong st))
  <= len phrase.
Proof.
  pose proof (convertCzechCharacters_len phrase) as Hc.
  pose proof (applyVowelRemoval_length (convertCzechCharacters phrase)) as H1.
  pose proof (applyMorphemeShortening_length (convertCzechCharacters phrase))
    as H2.
  pose proof (applyVowelRemoval_length
                (applyMorphemeShortening (convertCzechCharacters phrase)))
    as H3.
  unfold shortenPhrase, applyAggressiveShortening, bind, ret, setFontSize,
    getTextWidth, consoleLog.
  cbn [fst snd doc fontStyle fontSize console].
  destruct isSong; cbn [negb fst]; [|lia].
  destruct (Qle_bool _ _); cbn [fst snd doc fontStyle fontSize console]; [lia|].
  destruct (Qle_bool _ _); cbn [fst snd doc fontStyle fontSize console]; [lia|].
  destruct (Qle_bool _ _); cbn [fst snd doc fontStyle fontSize console]; [lia|].
  destruct (Qle_bool _ _); cbn [fst snd doc fontStyle fontSize console]; [lia|].
  eapply Z.le_trans; [apply aggressiveShortening_len|]. lia.
Qed.

(** X10.  The text [shortenPhrase] returns, for a song or for a break, is
    never longer than the phrase it was given. *)
Theorem shortenPhrase_never_longer (phrase : jsstring) (maxWidth size : Q)
    (isSong : bool) (st : State) :
  len (fst (shortenPhrase measure phrase maxWidth size isSong st))
  <= len phrase.
Proof. apply shortenPhrase_len. Qed.

End TruncationLengths.

Lemma preserveWordShape_length_and_ends_witness :
  len (preserveWordShape (lit "Wonderful") 4) = 4
  /\ preserveWordShape (lit "Wonderful") 4 = lit "Wonl".
Proof.
  split; [|reflexivity].
  exact (proj1 (preserveWordShape_length_and_ends (lit "Wonderful") 4
                  ltac:(lia))).
Defined.


(** ** The shortener: what fits, and what it does to the document *)

Section ShortenerEffects.

Variable measure : oracle.

Lemma nine_tenths_le (x : Q) : (0 <= x)%Q -> (x * 0.9 <= x)%Q.
Proof.
  intros H. apply Qle_trans with (x * 1)%Q.
  - apply Qmult_le_compat_nonneg; split;
      solve [exact H | apply Qle_refl | discriminate].
  - rewrite Qmult_1_r. apply Qle_refl.
Qed.

(** X11.  Whatever [shortenPhrase] returns for a song without going as
    far as the aggressive stage measures at most [maxWidth]: only the last
    resort is returned unmeasured. *)
Theorem shortenPhrase_fits_before_last_resort (phrase : jsstring)
    (maxWidth size : Q) (st : State) :
  (0 <= maxWidth)%Q ->
  let run := shortenPhrase measure phrase maxWidth size true st in
  ~ In AggressiveTruncation (stagesTried st (snd run)) ->
  (widthAt measure st size (fst run) <= maxWidth)%Q.
Proof.
  intros Hpos run Hlast.
  destruct (Qle_bool_cases
              (widthAt measure st size (convertCzechCharacters phrase))
              (maxWidth * 0.9)) as [[B P]|[B P]].
  - destruct (shortenPhrase_below_threshold measure phrase maxWidth size st B)
      as [E _].
    fold run in E. rewrite E.
    apply Qle_trans with (maxWidth * 0.9)%Q; [exact P|].
    apply nine_tenths_le. exact Hpos.
  - destruct (shortenPhrase_stages measure phrase maxWidth size st B)
      as (A1 & A2 & A3 & A4).
    fold run in A1, A2, A3, A4.
    destruct (Qle_bool_cases
                (widthAt measure st size
                   (applyVowelRemoval (convertCzechCharacters phrase)))
                maxWidth) as [[B1 P1]|[B1 _]].
    { destruct (A1 B1) as [-> _]. exact P1. }
    destruct (Qle_bool_cases
                (widthAt measure st size
                   (applyMorphemeShortening (convertCzechCharacters phrase)))
                maxWidth) as [[B2 P2]|[B2 _]].
    { destruct (A2 B1 B2) as [-> _]. exact P2. }
    destruct (Qle_bool_cases
                (widthAt measure st size
                   (applyVowelRemoval
                      (applyMorphemeShortening
                         (convertCzechCharacters phrase))))
                maxWidth) as [[B3 P3]|[B3 _]].
    { destruct (A3 B1 B2 B3) as [-> _]. exact P3. }
    destruct (A4 B1 B2 B3) as [_ E]. exfalso. apply Hlast. rewrite E.
    right; right; right; left; reflexivity.
Qed.

(** X12.  [shortenPhrase] draws nothing: all it does to the document is
    set the font size, once or twice, to the size it was given, which is
    still in force when it returns; the font style is left as it was. *)
Theorem shortenPhrase_sets_font_size_only (phrase : jsstring)
    (maxWidth size : Q) (isSong : bool) (st : State) :
  let st' := snd (shortenPhrase measure phrase maxWidth size isSong st) in
  fontStyle (doc st') = fontStyle (doc st)
  /\ fontSize (doc st') = size
  /\ (calls (doc st') = calls (doc st) ++ [SetFontSize size]
      \/ calls (doc st')
         = calls (doc st) ++ [SetFontSize size; SetFontSize size]).
Proof.
  unfold shortenPhrase, applyAggressiveShortening, bind, ret, setFontSize,
    getTextWidth, consoleLog.
  cbn [fst snd doc fontStyle fontSize console calls].
  destruct isSong; cbn [negb snd doc fontStyle fontSize calls];
    [|repeat split; left; reflexivity].
  repeat (destruct (Qle_bool _ _);
          cbn [fst snd doc fontStyle fontSize console calls];
          [repeat split; left; reflexivity|]).
  repeat split. right. rewrite <- app_assoc. reflexivity.
Qed.

End ShortenerEffects.

Lemma shortenPhrase_fits_before_last_resort_witness :
  (widthAt fixedPitch freshState 60
     (fst (shortenPhrase fixedPitch (lit "Something Wonderful Tonight")
             contentWidth 60 true freshState))
   <= contentWidth)%Q.
Proof.
  apply (shortenPhrase_fits_before_last_resort fixedPitch
           (lit "Something Wonderful Tonight") contentWidth 60 freshState).
  - vm_compute. intros E; discriminate E.
  - vm_compute. intros [E|[E|[E|[]]]]; discriminate E.
Defined.

(** ** The font size of break labels: bounds *)

Section MidshowFontSizeBounds.

Variable measure : oracle.

(** What the loop keeps: the size has gone down by a whole number [k] of
    points; when [k] is not zero the last step was taken above the floor
    and the width is that of the text at the size reached.  The loop
    changes neither the font style nor the console. *)
Lemma midshowLoop_invariant fuel text maxWidth floor size width st :
  let r := midshowLoop measure fuel text maxWidth floor size width st in
  fontStyle (doc (snd r)) = fontStyle (doc st)
  /\ console (snd r) = console st
  /\ exists k : nat,
       (fst (fst r) == size - inject_Z (Z.of_nat k))%Q
       /\ ((k = O /\ fst r = (size, width))
           \/ ((0 < k)%nat
               /\ (floor < fst (fst r) + 1)%Q
               /\ snd (fst r)
                  = measure (fontStyle (doc st)) (fst (fst r)) text)).
Proof.
  revert size width st; induction fuel as [|fuel IH]; intros size width st.
  - cbn. repeat split. exists O. split; [cbn; ring|left; split; reflexivity].
  - cbn [midshowLoop].
    destruct (Qle_bool_cases width maxWidth) as [[-> _]|[-> _]];
      cbn [negb andb].
    { cbn. repeat split. exists O.
      split; [cbn; ring|left; split; reflexivity]. }
    destruct (Qle_bool_cases size floor) as [[-> _]|[-> Hs]];
      cbn [negb andb].
    { cbn. repeat split. exists O.
      split; [cbn; ring|left; split; reflexivity]. }
    unfold bind, setFontSize, getTextWidth. cbn [doc fontStyle fontSize].
    match goal with
    | |- context [midshowLoop measure fuel text maxWidth floor ?s ?w ?t] =>
        specialize (IH s w t); set (r := midshowLoop measure fuel text maxWidth
                                            floor s w t) in *
    end.
    cbv zeta in IH. cbn [doc fontStyle console] in IH.
    destruct IH as (Hstyle & Hcons & k & Hk & Hcase).
    split; [exact Hstyle|]. split; [exact Hcons|].
    exists (S k). split.
    + rewrite Hk, Nat2Z.inj_succ, <- Z.add_1_r, inject_Z_plus. ring.
    + right. split; [lia|].
      destruct Hcase as [[-> E]|(_ & Hfl & Hw)].
      * rewrite E. cbn [fst snd]. split; [|reflexivity].
        setoid_replace (size - 1 + 1)%Q with size by ring. exact Hs.
      * split; [exact Hfl|exact Hw].
Qed.

(** X13.  The size [calculateMidshowFontSize] returns is the base size
    less a whole number of points.  It is the base itself when the base is
    at most 8; otherwise it is above 7.  At the size returned the
    transliterated label fits, or the size is at most 8.  When the base
    is a whole number of points from 8 up, the size returned is at
    least 8. *)
Theorem calculateMidshowFontSize_bounds (text : jsstring)
    (maxWidth base : Q) (st : State) :
  let size := fst (calculateMidshowFontSize measure text maxWidth base st) in
  (exists k : nat, (size == base - inject_Z (Z.of_nat k))%Q)
  /\ (size <= base)%Q
  /\ ((base <= 8)%Q -> size = base)
  /\ ((8 < base)%Q -> (7 < size)%Q)
  /\ ((widthAt measure st size (convertCzechCharacters text) <= maxWidth)%Q
      \/ (size <= 8)%Q)
  /\ (forall n : Z, (base == inject_Z n)%Q -> 8 <= n -> (8 <= size)%Q).
Proof.
  unfold calculateMidshowFontSize, bind, ret, setFontSize, getTextWidth,
    consoleLog.
  cbn [fst snd doc fontStyle fontSize].
  match goal with
  | |- context [midshowLoop measure ?f ?t maxWidth 8 base ?w ?s] =>
      pose proof (midshowLoop_invariant f t maxWidth 8 base w s) as Inv;
      pose proof (midshowLoop_exit measure f t maxWidth 8 base w s
                    (Qceiling_fuel base)) as Exit;
      set (r := midshowLoop measure f t maxWidth 8 base w s) in *
  end.
  cbv zeta in Inv, Exit. cbn [doc fontStyle] in Inv.
  destruct Inv as (_ & _ & k & Hk & Hcase).
  destruct r as [[size width] st']. cbn [fst snd] in *.
  assert (Hle : (size <= base)%Q).
  { rewrite Hk. apply Qplus_le_l with (z := inject_Z (Z.of_nat k)).
    setoid_replace (base - inject_Z (Z.of_nat k) + inject_Z (Z.of_nat k))%Q
      with (base + 0)%Q by ring.
    apply Qplus_le_r. change 0%Q with (inject_Z 0).
    rewrite <- Zle_Qle. lia. }
  split; [exists k; exact Hk|]. split; [exact Hle|].
  split; [|split; [|split]].
  - intros Hb. destruct Hcase as [[_ E]|(Hpos & Hfl & _)]; [congruence|].
    exfalso.
    assert (Hk1 : (size + 1 <= base)%Q).
    { rewrite Hk. apply Qplus_le_l with (z := inject_Z (Z.of_nat k)).
      setoid_replace
        (base - inject_Z (Z.of_nat k) + 1 + inject_Z (Z.of_nat k))%Q
        with (base + inject_Z 1)%Q by ring.
      apply Qplus_le_r. rewrite <- Zle_Qle. lia. }
    apply (Qlt_not_le _ _ Hfl).
    apply Qle_trans with base; assumption.
  - intros Hb. destruct Hcase as [[_ E]|(_ & Hfl & _)].
    + injection E as -> _. apply Qlt_trans with 8%Q; [reflexivity|exact Hb].
    + apply Qplus_lt_l with (z := 1%Q). exact Hfl.
  - destruct Exit as [Hfit|Hfloor]; [left|right; exact Hfloor].
    unfold widthAt. destruct Hcase as [[_ E]|(_ & _ & Hw)].
    + injection E as -> ->. exact Hfit.
    + rewrite <- Hw. exact Hfit.
  - intros n Hn H8. destruct Hcase as [[_ E]|(_ & Hfl & _)].
    + injection E as -> _. rewrite Hn. change 8%Q with (inject_Z 8).
      rewrite <- Zle_Qle. exact H8.
    + assert (E : (size == inject_Z (n - Z.of_nat k))%Q).
      { rewrite Hk, Hn. unfold Zminus.
        rewrite inject_Z_plus, inject_Z_opp. reflexivity. }
      rewrite E in Hfl |- *.
      change 8%Q with (inject_Z 8) in Hfl |- *.
      change 1%Q with (inject_Z 1) in Hfl.
      rewrite <- inject_Z_plus, <- Zlt_Qlt in Hfl.
      rewrite <- Zle_Qle. lia.
Qed.

End MidshowFontSizeBounds.

Lemma calculateMidshowFontSize_bounds_witness :
  (8 <= fst (calculateMidshowFontSize fixedPitch longLabel (contentWidth - 15)
               28 freshState))%Q.
Proof.
  refine (proj2 (proj2 (proj2 (proj2 (proj2
            (calculateMidshowFontSize_bounds fixedPitch longLabel
               (contentWidth - 15) 28 freshState))))) 28 _ _).
  - reflexivity.
  - lia.
Defined.

(** ** The font-size plan *)

Section FontSizePlan.

Lemma searchCandidates_in fit sizes songSize midshowSize :
  sizes <> [] ->
  exists c,
    In c sizes
    /\ searchCandidates fit sizes songSize midshowSize
       = (inject_Z c, Qmax 16 (inject_Z c * 0.6)).
Proof.
  revert songSize midshowSize; induction sizes as [|size rest IH];
    intros songSize midshowSize Hne; [congruence|].
  cbn [searchCandidates]. destruct (fit size).
  - exists size. split; [left; reflexivity|reflexivity].
  - destruct rest as [|size' rest].
    + exists size. split; [left; reflexivity|reflexivity].
    + destruct (IH (inject_Z size) (Qmax 16 (inject_Z size * 0.6)))
        as (c & Hc & E); [discriminate|].
      exists c. split; [right; exact Hc|exact E].
Qed.

Lemma candidates_at_most_60 c : In c candidates -> c <= 60.
Proof. unfold candidates. cbn [In]. intuition lia. Qed.

Lemma break_size_bounds c :
  24 <= c <= 60 ->
  (16 <= Qmax 16 (inject_Z c * 0.6))%Q
  /\ (Qmax 16 (inject_Z c * 0.6) <= 36)%Q
  /\ (Qmax 16 (inject_Z c * 0.6) <= inject_Z c)%Q.
Proof.
  intros [H1 H2]. split; [apply Q.le_max_l|]. split.
  - apply Q.max_lub; [discriminate|]. unfold Qle; cbn. lia.
  - apply Q.max_lub; unfold Qle; cbn; lia.
Qed.

(** X14.  The sizes [calculateFontSizes] plans for any setlist: the song
    size lies between 24 and 60, the break size between 16 and 36, and the
    break size never exceeds the song size.  With more than nine songs
    they are 42 and 28; otherwise the song size is one of the candidates
    and the break size is [max(16, 0.6 x song size)]. *)
Theorem calculateFontSizes_plan (setlist : list Item) :
  let plan := calculateFontSizes setlist in
  (24 <= songFontSize plan)%Q /\ (songFontSize plan <= 60)%Q
  /\ (16 <= midshowFontSize plan)%Q /\ (midshowFontSize plan <= 36)%Q
  /\ (midshowFontSize plan <= songFontSize plan)%Q
  /\ (9 < songCountOf setlist ->
      songFontSize plan = 42%Q /\ midshowFontSize plan = 28%Q)
  /\ (songCountOf setlist <= 9 ->
      exists c, In c candidates
                /\ (songFontSize plan == inject_Z c)%Q
                /\ (midshowFontSize plan == Qmax 16 (inject_Z c * 0.6))%Q).
Proof.
  cbv zeta. unfold calculateFontSizes.
  destruct (Z.leb_spec (songCountOf setlist) 9) as [H|H].
  - unfold calculateSinglePageSizes. rewrite sizeLoop_candidates.
    destruct (searchCandidates_in
                (fitsBudget setlist (contentHeight - 20)) candidates 32 20)
      as (c & Hc & ->); [discriminate|].
    cbn [songFontSize midshowFontSize].
    pose proof (candidates_at_least_24 c Hc) as L.
    pose proof (candidates_at_most_60 c Hc) as U.
    destruct (break_size_bounds c (conj L U)) as (B1 & B2 & B3).
    assert (Es : (Qmax 24 (inject_Z c) == inject_Z c)%Q).
    { apply Q.max_r. change 24%Q with (inject_Z 24).
      rewrite <- Zle_Qle. exact L. }
    assert (Em : (Qmax 14 (Qmax 16 (inject_Z c * 0.6))
                  == Qmax 16 (inject_Z c * 0.6))%Q).
    { apply Q.max_r. apply Qle_trans with 16%Q; [discriminate|exact B1]. }
    split; [apply Q.le_max_l|].
    split; [rewrite Es; change 60%Q with (inject_Z 60);
            rewrite <- Zle_Qle; exact U|].
    split; [rewrite Em; exact B1|].
    split; [rewrite Em; exact B2|].
    split; [rewrite Es, Em; exact B3|].
    split; [intros G; lia|].
    intros _. exists c. split; [exact Hc|]. split; [exact Es|exact Em].
  - cbn [songFontSize midshowFontSize].
    repeat split; try discriminate. intros G. lia.
Qed.

(** The estimate grows with the candidate. *)
Lemma heights_monotone items isFirst (c c' : Q) :
  (c <= c')%Q -> (heights c isFirst items <= heights c' isFirst items)%Q.
Proof.
  intros H. revert isFirst; induction items as [|item rest IH]; intros isFirst;
    cbn [heights]; [apply Qle_refl|].
  apply Qplus_le_compat; [|apply IH].
  assert (Hb : (Qmax 16 (c * 0.6) <= Qmax 16 (c' * 0.6))%Q).
  { apply Q.max_le_compat_l. apply Qmult_le_compat_r; [exact H|discriminate]. }
  unfold entryHeight. destruct (isSongItem item).
  - repeat (apply Qmult_le_compat_r; [|discriminate]). exact H.
  - apply Qplus_le_compat.
    + repeat (apply Qmult_le_compat_r; [|discriminate]). exact Hb.
    + destruct isFirst; [apply Qle_refl|].
      repeat (apply Qmult_le_compat_r; [|discriminate]). exact Hb.
Qed.

(** X15.  The height test of the single-page search is downward closed:
    when a size passes it, every smaller size passes it too, so the first
    size the descending loop accepts is the largest that fits. *)
Theorem fitsBudget_downward (setlist : list Item) (availableHeight : Q)
    (size size' : Z) :
  size' <= size ->
  fitsBudget setlist availableHeight size = true ->
  fitsBudget setlist availableHeight size' = true.
Proof.
  unfold fitsBudget. rewrite !Qle_bool_iff. intros Hs Hfit.
  rewrite estimateFrom_heights in * by lia.
  eapply Qle_trans; [|exact Hfit].
  apply Qplus_le_r. apply heights_monotone.
  rewrite <- Zle_Qle. exact Hs.
Qed.

End FontSizePlan.

Lemma calculateFontSizes_plan_witness :
  songFontSize (calculateFontSizes (List.repeat (songEntry (lit "Song")) 12))
  = 42%Q.
Proof.
  refine (proj1 (proj1 (proj2 (proj2 (proj2 (proj2 (proj2
            (calculateFontSizes_plan
               (List.repeat (songEntry (lit "Song")) 12))))))) _)).
  vm_compute. reflexivity.
Defined.

Lemma fitsBudget_downward_witness :
  fitsBudget (List.repeat (songEntry (lit "Song")) 9) usableHeight 40 = true.
Proof.
  apply (fitsBudget_downward (List.repeat (songEntry (lit "Song")) 9)
           usableHeight 60 40).
  - lia.
  - vm_compute. reflexivity.
Defined.

(** ** Durations and times *)

Section Durations.

Variable numberToString : Q -> jsstring.

Lemma totalDuration_from (items : list Item) (acc : Q) :
  (fold_left
     (fun total item =>
        if JS.eqb (type item) (lit "midshow") then (total + 1)%Q
        else (total + numberOr (duration item) 3)%Q)
     items acc
   == acc + calculateTotalDuration items)%Q.
Proof.
  unfold calculateTotalDuration.
  revert acc; induction items as [|item rest IH]; intros acc;
    cbn [fold_left]; [ring|].
  rewrite IH. rewrite (IH (if JS.eqb (type item) (lit "midshow")
                           then (0 + 1)%Q
                           else (0 + numberOr (duration item) 3)%Q)).
  destruct (JS.eqb (type item) (lit "midshow")); ring.
Qed.

Lemma calculateTotalDuration_cons item rest :
  (calculateTotalDuration (item :: rest)
   == countedDuration item + calculateTotalDuration rest)%Q.
Proof.
  unfold calculateTotalDuration at 1. cbn [fold_left].
  rewrite totalDuration_from. unfold countedDuration, isSongItem.
  destruct (JS.eqb (type item) (lit "midshow")); cbn [negb]; ring.
Qed.

Lemma calculateTotalDuration_app a b :
  (calculateTotalDuration (a ++ b)
   == calculateTotalDuration a + calculateTotalDuration b)%Q.
Proof.
  induction a as [|item a IH]; cbn [app].
  - change (calculateTotalDuration []) with 0%Q. ring.
  - rewrite !calculateTotalDuration_cons, IH. ring.
Qed.

(** X16.  The total duration of two setlists played one after the other
    is the sum of their totals; and when no song carries a duration of its
    own, the total is three minutes a song and one minute a break. *)
Theorem calculateTotalDuration_sums (a b : list Item) :
  (calculateTotalDuration (a ++ b)
   == calculateTotalDuration a + calculateTotalDuration b)%Q
  /\ (Forall (fun item => duration item = None) a ->
      (calculateTotalDuration a
       == inject_Z (3 * songCountOf a
                    + (Z.of_nat (List.length a) - songCountOf a)))%Q).
Proof.
  split; [apply calculateTotalDuration_app|].
  induction 1 as [|item rest Hd _ IH].
  - reflexivity.
  - rewrite calculateTotalDuration_cons, IH.
    unfold countedDuration, songCountOf. cbn [List.filter List.length].
    rewrite Hd. cbn [numberOr].
    destruct (isSongItem item); cbn [List.length].
    + change 3%Q with (inject_Z 3). rewrite <- inject_Z_plus.
      match goal with
      | |- (inject_Z ?x == inject_Z ?y)%Q =>
          replace x with y by lia; reflexivity
      end.
    + change 1%Q with (inject_Z 1). rewrite <- inject_Z_plus.
      match goal with
      | |- (inject_Z ?x == inject_Z ?y)%Q =>
          replace x with y by lia; reflexivity
      end.
Qed.

Lemma Qfloor_half z : Qfloor (inject_Z z + (1 # 2)) = z.
Proof.
  unfold Qfloor, inject_Z, Qplus. cbn.
  symmetry. apply Z.div_unique with 1; lia.
Qed.

(** X17.  The clock text of a time that is not negative is made of the
    minutes and the seconds of its rounding to the second, the seconds
    between 0 and 59; a whole number of minutes shows zero seconds. *)
Theorem formatTime_parts (minutes : Q) :
  ((0 <= minutes)%Q ->
   exists mins secs,
     0 <= mins /\ 0 <= secs < 60
     /\ mins * 60 + secs = Qfloor (minutes * 60 + (1 # 2))
     /\ formatTime numberToString minutes
        = padStart2 (numberToString (inject_Z mins)) ++ lit ":"
            ++ padStart2 (numberToString (inject_Z secs)))
  /\ (forall m : Z,
        (minutes == inject_Z m)%Q ->
        formatTime numberToString minutes
        = padStart2 (numberToString (inject_Z m)) ++ lit ":"
            ++ padStart2 (numberToString (inject_Z 0))).
Proof.
  split.
  - intros H. set (t := Qfloor (minutes * 60 + (1 # 2))).
    assert (Ht : 0 <= t).
    { unfold t. change 0 with (Qfloor 0). apply Qfloor_resp_le.
      apply Qle_trans with (minutes * 60 + 0)%Q.
      - rewrite Qplus_0_r. apply Qmult_le_0_compat; [exact H|discriminate].
      - apply Qplus_le_r. discriminate. }
    exists (t / 60), (Z.rem t 60). rewrite Z.rem_mod_nonneg by lia.
    pose proof (Z.mod_pos_bound t 60 ltac:(lia)) as Hm.
    pose proof (Z.div_mod t 60 ltac:(lia)) as Hd.
    split; [apply Z.div_pos; lia|]. split; [lia|]. split; [lia|].
    unfold formatTime. fold t. rewrite Z.rem_mod_nonneg by lia.
    reflexivity.
  - intros m Hm. unfold formatTime.
    assert (E : Qfloor (minutes * 60 + (1 # 2)) = m * 60).
    { rewrite <- (Qfloor_half (m * 60)). apply Qfloor_comp.
      rewrite Hm, inject_Z_mult. reflexivity. }
    rewrite E, Z.div_mul by lia.
    rewrite Z.rem_mul by lia. reflexivity.
Qed.

End Durations.

Lemma calculateTotalDuration_sums_witness :
  (calculateTotalDuration
     [songEntry (lit "Song"); breakEntry (lit "Break")]
   == 4)%Q.
Proof.
  exact (proj2 (calculateTotalDuration_sums
                  [songEntry (lit "Song"); breakEntry (lit "Break")] [])
           ltac:(repeat constructor)).
Defined.

Lemma formatTime_parts_witness :
  formatTime wholeNumberToString 3 = lit "03:00".
Proof.
  exact (proj2 (formatTime_parts wholeNumberToString 3) 3 ltac:(reflexivity)).
Defined.

(** ** Wrapping the titles of the organizer table *)

Section Wrapping.

Variable measure : oracle.

Lemma join_app (sep : jsstring) (a b : list jsstring) :
  a <> [] -> b <> [] -> join sep (a ++ b) = join sep a ++ sep ++ join sep b.
Proof.
  intros Ha Hb. induction a as [|x a IH]; [congruence|].
  destruct a as [|y a].
  - cbn [app]. apply join_cons. exact Hb.
  - change ((x :: y :: a) ++ b) with (x :: (y :: a) ++ b).
    rewrite join_cons by discriminate.
    rewrite IH by discriminate.
    rewrite (join_cons sep x (y :: a)) by discriminate.
    rewrite <- !app_assoc. reflexivity.
Qed.

(** Two neighbours joined into one line read the same. *)
Lemma join_merge (sep : jsstring) (a : list jsstring) (x y : jsstring)
    (b : list jsstring) :
  join sep (a ++ (x ++ sep ++ y) :: b) = join sep (a ++ x :: y :: b).
Proof.
  assert (G : join sep ((x ++ sep ++ y) :: b) = join sep (x :: y :: b)).
  { rewrite (join_cons sep x (y :: b)) by discriminate.
    destruct b as [|z b]; [reflexivity|].
    rewrite !(join_cons sep _ (z :: b)) by discriminate.
    rewrite <- !app_assoc. reflexivity. }
  destruct a as [|a0 a]; [exact G|].
  rewrite !(join_app sep (a0 :: a)) by discriminate.
  rewrite G. reflexivity.
Qed.

(** The loop of [wrapText] measures and leaves the state alone. *)
Lemma wrapWords_state words maxWidth lines currentLine st :
  snd (wrapWords measure words maxWidth lines currentLine st) = st.
Proof.
  revert lines currentLine; induction words as [|word rest IH];
    intros lines currentLine; cbn [wrapWords]; [reflexivity|].
  unfold bind, getTextWidth. destruct (Qle_bool _ _); apply IH.
Qed.

(** Every line, finished or under construction, fits the width or holds
    no space. *)
Lemma wrapWords_lines words maxWidth lines currentLine st :
  let ok line :=
    (measure (fontStyle (doc st)) (fontSize (doc st)) line <= maxWidth)%Q
    \/ ~ In space line in
  Forall (fun w => ~ In space w) words ->
  Forall ok lines -> ok currentLine ->
  let r := fst (wrapWords measure words maxWidth lines currentLine st) in
  Forall ok (fst r) /\ ok (snd r).
Proof.
  intros ok Hwords. revert lines currentLine;
    induction Hwords as [|word rest Hw _ IH]; intros lines currentLine Hl Hc.
  - split; assumption.
  - cbn [wrapWords]. unfold bind, getTextWidth.
    match goal with
    | |- context [Qle_bool ?a ?b] =>
        destruct (Qle_bool_cases a b) as [[-> P]|[-> _]]
    end.
    + apply IH; [exact Hl|]. left. exact P.
    + apply IH; [|right; exact Hw].
      destruct currentLine; [exact Hl|].
      apply Forall_app. split; [exact Hl|]. constructor; [exact Hc|constructor].
Qed.

(** No word is lost on the way, as long as no word is empty. *)
Lemma wrapWords_keeps_words words maxWidth lines currentLine st :
  Forall (fun w => w <> []) words ->
  let r := fst (wrapWords measure words maxWidth lines currentLine st) in
  join [space] (fst r ++ pending (snd r))
  = join [space] (lines ++ pending currentLine ++ words).
Proof.
  intros Hwords. revert lines currentLine;
    induction Hwords as [|word rest Hw _ IH]; intros lines currentLine.
  - cbn. rewrite app_nil_r. reflexivity.
  - cbn [wrapWords]. unfold bind, getTextWidth.
    destruct (Qle_bool _ _); cbv zeta; rewrite IH.
    + destruct currentLine as [|c currentLine].
      * cbn [app pending]. destruct word; [congruence|reflexivity].
      * exact (join_merge [space] lines (c :: currentLine) word rest).
    + destruct word as [|x word]; [congruence|]. cbn [pending].
      destruct currentLine; cbn [pending app].
      * reflexivity.
      * rewrite <- app_assoc. reflexivity.
Qed.

(** X18.  Every line [wrapText] returns measures at most [maxWidth] at
    the size given, or holds no space: only a single word can stick out of
    the column. *)
Theorem wrapText_lines_fit (text : jsstring) (maxWidth size : Q)
    (st : State) :
  Forall
    (fun line =>
       (widthAt measure st size line <= maxWidth)%Q \/ ~ In space line)
    (fst (wrapText measure text maxWidth size st)).
Proof.
  unfold wrapText, bind, ret, setFontSize.
  set (st1 := {| doc := _; console := _ |}).
  pose proof (wrapWords_lines (split space text) maxWidth [] [] st1) as H.
  cbv zeta in H.
  destruct (wrapWords measure (split space text) maxWidth [] [] st1)
    as [[lines currentLine] st2].
  cbn [fst snd] in *.
  destruct H as [Hl Hc];
    [apply split_from_no_sep; intros []|constructor|right; intros []|].
  unfold widthAt. subst st1. cbn [doc fontStyle fontSize] in *.
  destruct currentLine; [exact Hl|].
  apply Forall_app. split; [exact Hl|]. constructor; [exact Hc|constructor].
Qed.

(** X19.  Wrapping loses nothing of a text whose words are separated by
    single spaces: the lines joined by spaces give the text back. *)
Theorem wrapText_keeps_text (text : jsstring) (maxWidth size : Q)
    (st : State) :
  Forall (fun w => w <> []) (split space text) ->
  join [space] (fst (wrapText measure text maxWidth size st)) = text.
Proof.
  intros Hwords. unfold wrapText, bind, ret, setFontSize.
  set (st1 := {| doc := _; console := _ |}).
  pose proof (wrapWords_keeps_words (split space text) maxWidth [] [] st1
                Hwords) as H.
  cbv zeta in H.
  destruct (wrapWords measure (split space text) maxWidth [] [] st1)
    as [[lines currentLine] st2].
  cbn [fst snd app pending] in *.
  unfold split in H. rewrite join_split_from in H. cbn [app] in H.
  rewrite <- H. destruct currentLine; [rewrite app_nil_r|]; reflexivity.
Qed.

End Wrapping.

Lemma wrapText_keeps_text_witness :
  join [space]
    (fst (wrapText fixedPitch (lit "Something Wonderful Tonight") 20 9
            freshState))
  = lit "Something Wonderful Tonight".
Proof.
  apply (wrapText_keeps_text fixedPitch (lit "Something Wonderful Tonight")
           20 9 freshState).
  vm_compute. repeat constructor; intros E; discriminate E.
Defined.

(** ** The calls made on the document *)

Lemma shortenPhrase_break_text measure phrase maxWidth size st :
  fst (shortenPhrase measure phrase maxWidth size false st)
  = convertCzechCharacters phrase.
Proof. reflexivity. Qed.

Section DocumentCalls.

Variable measure : oracle.
Variable numberToString : Q -> jsstring.
Variable today : jsstring.

Lemma emitsOnly_ret {A} P (a : A) : emitsOnly P (ret a).
Proof.
  intros st. exists []. split; [symmetry; apply app_nil_r|constructor].
Qed.

Lemma emitsOnly_bind {A B} P (c : M A) (k : A -> M B) :
  emitsOnly P c -> (forall a, emitsOnly P (k a)) -> emitsOnly P (bind c k).
Proof.
  intros Hc Hk st. unfold bind.
  destruct (Hc st) as (l1 & E1 & F1). destruct (c st) as [a st1].
  cbn [snd] in E1. destruct (Hk a st1) as (l2 & E2 & F2).
  exists (l1 ++ l2). split.
  - rewrite E2, E1, app_assoc. reflexivity.
  - apply Forall_app. split; assumption.
Qed.

Lemma emitsOnly_call P c : P c -> emitsOnly P (call c).
Proof.
  intros H st. exists [c]. split; [reflexivity|]. constructor; [exact H|constructor].
Qed.

Lemma emitsOnly_setFontSize P size :
  P (SetFontSize size) -> emitsOnly P (setFontSize size).
Proof.
  intros H st. exists [SetFontSize size]. split; [reflexivity|].
  constructor; [exact H|constructor].
Qed.

Lemma emitsOnly_setFont P family style :
  P (SetFont family style) -> emitsOnly P (setFont family style).
Proof.
  intros H st. exists [SetFont family style]. split; [reflexivity|].
  constructor; [exact H|constructor].
Qed.

Lemma emitsOnly_getTextWidth P text : emitsOnly P (getTextWidth measure text).
Proof.
  intros st. exists []. split; [symmetry; apply app_nil_r|constructor].
Qed.

Lemma emitsOnly_consoleLog P l : emitsOnly P (consoleLog l).
Proof.
  intros st. exists []. split; [symmetry; apply app_nil_r|constructor].
Qed.


Ltac emits_step :=
  lazymatch goal with
  | |- emitsOnly _ (bind _ _) => apply emitsOnly_bind; [|intros]
  | |- emitsOnly _ (ret _) => apply emitsOnly_ret
  | |- emitsOnly _ (call _) => apply emitsOnly_call; exact I
  | |- emitsOnly _ (setFontSize _) => apply emitsOnly_setFontSize; exact I
  | |- emitsOnly _ (setFont _ _) => apply emitsOnly_setFont; exact I
  | |- emitsOnly _ (getTextWidth _ _) => apply emitsOnly_getTextWidth
  | |- emitsOnly _ (consoleLog _) => apply emitsOnly_consoleLog
  | |- emitsOnly _ (if ?b then _ else _) => destruct b
  | |- emitsOnly _ (match ?x with _ => _ end) => destruct x
  | |- emitsOnly _ (let _ := _ in _) => cbv zeta
  end.

Lemma shortenPhrase_emits phrase maxWidth size isSong :
  emitsOnly isFontCall (shortenPhrase measure phrase maxWidth size isSong).
Proof.
  unfold shortenPhrase, applyAggressiveShortening. repeat emits_step.
Qed.

Lemma midshowLoop_emits fuel text maxWidth floor size width :
  emitsOnly isFontCall
    (midshowLoop measure fuel text maxWidth floor size width).
Proof.
  revert size width; induction fuel as [|fuel IH]; intros size width;
    cbn [midshowLoop]; repeat emits_step. apply IH.
Qed.

Lemma calculateMidshowFontSize_emits text maxWidth base :
  emitsOnly isFontCall (calculateMidshowFontSize measure text maxWidth base).
Proof.
  unfold calculateMidshowFontSize. repeat emits_step.
  apply midshowLoop_emits.
Qed.








(** One entry of the stage view: font calls, then the entry's text, then
    a page break at most. *)
Lemma stageRows_emits items index sizes forceSinglePage yPosition st :
  exists added,
    calls (doc (snd (stageRows measure items index sizes forceSinglePage
                       yPosition st)))
    = calls (doc st) ++ added
    /\ Forall (isStageCall forceSinglePage) added
    /\ Forall2 showsEntry items (textsOf added).
Proof.
  revert index yPosition st; induction items as [|item rest IH];
    intros index yPosition st.
  - exists []. cbn. split; [symmetry; apply app_nil_r|].
    split; constructor.
  - cbn [stageRows]. unfold bind at 1.
    (* the size of the entry *)
    set (sizing := if isSongItem item then ret (songFontSize sizes)
                   else calculateMidshowFontSize measure _ _ _).
    assert (Hsizing : emitsOnly isFontCall sizing).
    { unfold sizing. destruct (isSongItem item);
        [apply emitsOnly_ret|apply calculateMidshowFontSize_emits]. }
    destruct (Hsizing st) as (l1 & E1 & F1).
    destruct (sizing st) as [actualFontSize st1]. cbn [snd] in E1.
    cbv zeta. unfold bind at 1.
    (* the text shown *)
    match goal with
    | |- context [shortenPhrase measure ?t ?w ?s ?b st1] =>
        pose proof (shortenPhrase_emits t w s b st1) as (l2 & E2 & F2);
        pose proof (shortenPhrase_len measure t w s b st1) as Hlen;
        pose proof (shortenPhrase_break_text measure t w s st1) as Hbreak;
        destruct (shortenPhrase measure t w s b st1) as [displayText st2] eqn:Es
    end.
    cbn [fst snd] in E2, Hlen.
    (* the drawing *)
    unfold bind at 1. unfold setFontSize at 1. unfold bind at 1.
    set (styling := if negb (isSongItem item) then setFont _ _ else setFont _ _).
    assert (Hstyling :
              forall s, exists c,
                isFontCall c
                /\ calls (doc (snd (styling s))) = calls (doc s) ++ [c]).
    { intros s. unfold styling.
      destruct (negb (isSongItem item)); eexists;
        (split; [|reflexivity]); exact I. }
    match goal with
    | |- context [styling ?s] =>
        destruct (Hstyling s) as (cstyle & Fstyle & E3);
        destruct (styling s) as [u3 st3]
    end.
    cbn [snd doc calls] in E3.
    unfold bind at 1. unfold call at 1. unfold bind at 1.
    match goal with
    | |- context [(if ?b then ?t else ?e) ?s] =>
        set (breaking := if b then t else e);
        assert (Hbreaking :
                  exists l5,
                    calls (doc (snd (breaking s))) = calls (doc s) ++ l5
                    /\ Forall (isStageCall forceSinglePage) l5
                    /\ textsOf l5 = []);
        [|destruct Hbreaking as (l5 & E5 & F5 & T5);
          destruct (breaking s) as [y5 st5]]
    end.
    { unfold breaking. destruct forceSinglePage; cbn [negb andb].
      - exists []. cbn. split; [symmetry; apply app_nil_r|].
        split; [constructor|reflexivity].
      - destruct (negb (Qle_bool _ _)).
        + exists [AddPage]. cbn. split; [reflexivity|].
          split; [repeat constructor|reflexivity].
        + exists []. cbn. split; [symmetry; apply app_nil_r|].
          split; [constructor|reflexivity]. }
    cbn [snd doc calls] in E5.
    destruct (IH (index + 1) y5 st5) as (l6 & E6 & F6 & T6).
    match type of E5 with
    | _ = (_ ++ [?t]) ++ _ =>
        exists (l1 ++ l2 ++ [SetFontSize actualFontSize; cstyle]
                  ++ [t] ++ l5 ++ l6)
    end.
    split; [|split].
    + rewrite E6, E5, E3, E2, E1. rewrite <- !app_assoc. reflexivity.
    + assert (W : forall l, Forall isFontCall l ->
                            Forall (isStageCall forceSinglePage) l).
      { intros l. apply Forall_impl. intros c. destruct c; cbn; tauto. }
      repeat (apply Forall_app; split); auto.
      * constructor; [exact I|]. constructor; [|constructor].
        destruct cstyle; cbn in Fstyle |- *; tauto.
      * constructor; [exact I|constructor].
    + assert (T : forall l, Forall isFontCall l -> textsOf l = []).
      { induction 1 as [|c l Hc _ IHl]; [reflexivity|].
        destruct c; cbn in Hc |- *; tauto. }
      assert (Tapp : forall a b, textsOf (a ++ b) = textsOf a ++ textsOf b).
      { induction a as [|c a IHa]; intros b; [reflexivity|].
        destruct c; cbn; rewrite IHa; reflexivity. }
      rewrite !Tapp, (T l1 F1), (T l2 F2), T5.
      assert (Tc : textsOf [SetFontSize actualFontSize; cstyle] = []).
      { destruct cstyle; cbn in Fstyle |- *; tauto. }
      rewrite Tc. cbn [app textsOf].
      constructor; [|exact T6].
      unfold showsEntry. destruct (isSongItem item); [exact Hlen|].
      rewrite <- Hbreak, Es. reflexivity.
Qed.

Lemma addSetlistContent_calls setlist st :
  exists added,
    calls (doc (snd (addSetlistContent measure setlist st)))
    = calls (doc st) ++ added
    /\ Forall (isStageCall (songCountOf setlist <=? 9)) added
    /\ Forall2 showsEntry setlist (textsOf added).
Proof.
  unfold addSetlistContent. cbv zeta. unfold bind at 1.
  unfold setFont at 1. unfold bind at 1.
  match goal with
  | |- context [stageRows measure setlist ?i ?s ?f ?y ?t] =>
      destruct (stageRows_emits setlist i s f y t) as (l & E & F & T);
      destruct (stageRows measure setlist i s f y t) as [y' st']
  end.
  cbn [snd doc calls ret] in *.
  exists (SetFont helvetica (lit "bold") :: l). split; [|split].
  - rewrite E, <- app_assoc. reflexivity.
  - constructor; [exact I|exact F].
  - exact T.
Qed.

(** X20.  The stage view adds one text to the document for each entry
    of the setlist, in order: a break's label transliterated and never
    shortened, a song's title in a form that is not longer.  Beside the
    texts it only sets fonts, and it breaks the page only when the setlist
    has more than nine songs. *)
Theorem addSetlistContent_draws_each_entry (setlist : list Item)
    (st : State) :
  exists added,
    calls (doc (snd (addSetlistContent measure setlist st)))
    = calls (doc st) ++ added
    /\ Forall (isStageCall (songCountOf setlist <=? 9)) added
    /\ Forall2 showsEntry setlist (textsOf added).
Proof. apply addSetlistContent_calls. Qed.




End DocumentCalls.

